(** * The chi-squared CDF of Functional Python Programming, 2nd edition

    A shallow embedding of the two implementations of the chi-squared
    cumulative distribution function,

    - [Bonus/chi_sq.py]       (module [chi_sq]: binary64 floating point) and
    - [Chapter16/ch16_ex3.py] (module [ch16_ex3]: [fractions.Fraction]),

    with the pieces of the Python run time they rest on: exceptions, the
    generator protocol with [warnings.warn], [range], [reduce], [sum] and
    IEEE-754 binary64 arithmetic.

    Numbers. A [Fraction] is a rational of [Q]; Python keeps it in lowest
    terms, so every inspection of [numerator] or [denominator] goes through
    [Qred] and values are compared with [==]. A finite [float] is the
    rational it denotes: [+], [-], [*], [/] and [math.sqrt] are the exact
    operation followed by round-to-nearest-even on 53 bits ([round64],
    [round_sqrt]), as IEEE-754 prescribes. The C library's [pow] is not
    standardised to the last bit; it is a parameter [libm_pow] of both
    modules. [pow_cr], the correctly rounded power at multiples of one half,
    instantiates it wherever a concrete run is needed. Infinities, NaN,
    signed zeros and the [OverflowError] of results beyond the binary64
    range are outside the model. *)

From Stdlib Require Import ZArith QArith Qabs Qround Qpower List Lia Lqa String Bool.
From Stdlib Require Qcanon.
Import ListNotations.
Open Scope Q_scope.

(** ** IEEE-754 binary64, on the rationals *)

Module Binary64.

Definition pow2 (e : Z) : Q := Qpower 2 e.

Definition Qlt_bool (a b : Q) : bool := negb (Qle_bool b a).

(** The integer [l] with [2^l <= a < 2^(l+1)], for [a > 0]. *)
Definition ilog2 (a : Q) : Z :=
  let l := (Z.log2 (Qnum a) - Z.log2 (Zpos (Qden a)))%Z in
  if Qle_bool (pow2 l) a then l else (l - 1)%Z.

Definition round_half_even (r : Q) : Z :=
  let f := Qfloor r in
  match Qcompare (r - inject_Z f) (1 # 2) with
  | Lt => f
  | Gt => (f + 1)%Z
  | Eq => if Z.even f then f else (f + 1)%Z
  end.

(** Exponent of the least subnormal. *)
Definition emin : Z := (-1074)%Z.

(** Round to nearest, ties to even, 53 bits of precision, gradual
    underflow. *)
Definition round64 (q : Q) : Q :=
  let q := Qred q in
  if Qeq_bool q 0 then 0
  else
    let a := Qabs q in
    let e := Z.max (ilog2 a - 52) emin in
    let m := round_half_even (a / pow2 e) in
    let v := Qred (inject_Z m * pow2 e) in
    if Qle_bool 0 q then v else Qred (- v).

(** The correctly rounded square root: [sqrt q < f + 1/2] is decided on
    the squares. *)
Definition round_sqrt (q : Q) : Q :=
  let q := Qred q in
  if Qle_bool q 0 then 0
  else
    let e := Z.max (ilog2 q / 2 - 52) emin in
    let r := q / pow2 (2 * e) in
    let f := Z.sqrt (Qfloor r) in
    let h := (inject_Z f + (1 # 2)) * (inject_Z f + (1 # 2)) in
    let m := match Qcompare r h with
             | Lt => f
             | Gt => (f + 1)%Z
             | Eq => if Z.even f then f else (f + 1)%Z
             end in
    Qred (inject_Z m * pow2 e).

(** A power function that is correctly rounded where the CDF uses it: at
    integer exponents and at odd multiples of one half, where
    [a^(n/2) = sqrt (a^n)]. *)
Definition pow_cr (a b : Q) : Q :=
  let b := Qred b in
  match Qden b with
  | 1%positive => round64 (Qpower a (Qnum b))
  | 2%positive => round_sqrt (Qpower a (Qnum b))
  | _ => 0
  end.

(** Truncation toward zero: [int(x)] and [Fraction.__trunc__]. *)
Definition trunc (q : Q) : Z := Z.quot (Qnum q) (Zpos (Qden q)).

End Binary64.

(** ** The Python run time *)

Module Py.

Inductive exn : Type :=
| TypeError
| ValueError
| ZeroDivisionError.

Inductive result (A : Type) : Type :=
| Ok (a : A)
| Raise (e : exn).
Arguments Ok {A} a.
Arguments Raise {A} e.

Definition bind {A B : Type} (c : result A) (k : A -> result B) : result B :=
  match c with
  | Ok a => k a
  | Raise e => Raise e
  end.

(** [range(lo, hi)]. *)
Definition range (lo hi : Z) : list Z :=
  map (fun i => (lo + Z.of_nat i)%Z) (seq 0 (Z.to_nat (hi - lo))).

(** [functools.reduce(f, l)] without initial value: [TypeError] on the
    empty sequence. *)
Definition reduce {A : Type} (f : A -> A -> A) (l : list A) : result A :=
  match l with
  | [] => Raise TypeError
  | x :: xs => Ok (fold_left f xs x)
  end.

(** A generator, resumed on demand: it yields a value, emits a warning and
    goes on, dies of an exception, or returns. What follows a [Yield] is
    suspended until the consumer asks for the next value. *)
Inductive gen (A : Type) : Type :=
| Yield (v : A) (rest : unit -> gen A)
| Warn (msg : string) (rest : gen A)
| Fail (e : exn)
| Stop.
Arguments Yield {A} v rest.
Arguments Warn {A} msg rest.
Arguments Fail {A} e.
Arguments Stop {A}.

(** [for k in ks: yield body(k)], then [after]. *)
Fixpoint gen_for {A : Type} (body : Z -> result A) (ks : list Z)
    (after : gen A) : gen A :=
  match ks with
  | [] => after
  | k :: ks' =>
      match body k with
      | Ok v => Yield v (fun _ => gen_for body ks' after)
      | Raise e => Fail e
      end
  end.

(** The [take_until] both files define: the source is resumed only until
    [function] holds of a value, so what the source does after that value
    never happens. *)
Fixpoint take_until {A : Type} (function : A -> bool) (source : gen A) : gen A :=
  match source with
  | Yield v rest =>
      if function v then Stop else Yield v (fun _ => take_until function (rest tt))
  | Warn msg rest => Warn msg (take_until function rest)
  | Fail e => Fail e
  | Stop => Stop
  end.

(** [sum(g)]: left-to-right accumulation from [0]; the warnings emitted
    meanwhile are collected in order. *)
Fixpoint sum_from {A : Type} (add : A -> A -> A) (acc : A) (ws : list string)
    (g : gen A) : result (A * list string) :=
  match g with
  | Yield v rest => sum_from add (add acc v) ws (rest tt)
  | Warn msg rest => sum_from add acc (ws ++ [msg]) rest
  | Fail e => Raise e
  | Stop => Ok (acc, ws)
  end.

Definition sum {A : Type} (add : A -> A -> A) (zero : A) (g : gen A)
  : result (A * list string) :=
  sum_from add zero [] g.

(** [tuple(g)]: the values of the generator, in order. *)
Fixpoint tuple {A : Type} (g : gen A) : result (list A) :=
  match g with
  | Yield v rest =>
      match tuple (rest tt) with
      | Ok l => Ok (v :: l)
      | Raise e => Raise e
      end
  | Warn _ rest => tuple rest
  | Fail e => Raise e
  | Stop => Ok []
  end.

End Py.

Import Binary64 Py.

Declare Scope py_scope.
Delimit Scope py_scope with py.
Notation "x <- c ;; k" := (bind c (fun x => k))
  (at level 61, c at next level, right associativity) : py_scope.
Open Scope py_scope.

(** ** Chapter16/ch16_ex3.py: the rational implementation *)

Module ch16_ex3.

(** What [Fraction.__pow__] returns: a [Fraction] at an integer exponent,
    a [float] otherwise. *)
Inductive number : Type :=
| PyFraction (q : Q)
| PyFloat (f : Q).

(** [Fraction(x)]: exact on both. *)
Definition Fraction (x : number) : Q :=
  match x with
  | PyFraction q => q
  | PyFloat f => f
  end.

Definition is_float (x : number) : bool :=
  match x with
  | PyFraction _ => false
  | PyFloat _ => true
  end.

Definition numerator (q : Q) : Z := Qnum (Qred q).
Definition denominator (q : Q) : positive := Qden (Qred q).

(** [Fraction(n, d)] on two integers. *)
Definition Fraction2 (n d : Z) : result Q :=
  if (d =? 0)%Z then Raise ZeroDivisionError else Ok (inject_Z n / inject_Z d).

(** Python keeps the result of an operation in lowest terms. *)
Definition Fraction_add (a b : Q) : Q := Qred (a + b).

Definition Fraction_div (a b : Q) : result Q :=
  if Qeq_bool b 0 then Raise ZeroDivisionError else Ok (a / b).

(** [ε = 1E-8]: the double nearest to [10^-8]; [Fraction.__lt__] compares
    with its exact value. *)
Definition ε : Q := Eval vm_compute in round64 (1 # 100000000).

Definition sqrt_pi : Q := 677622787 # 382307718.

(** [fact]: called with [int] and with integral [Fraction] arguments. *)
Definition fact (k : Q) : result Z :=
  if Qlt_bool k 2 then Ok 1%Z
  else reduce Z.mul (range 2 (trunc k + 1)).

Section Libm.

Variable libm_pow : Q -> Q -> Q.

(** [a ** b] for two [Fraction]s. *)
Definition Fraction_pow (a b : Q) : result number :=
  match denominator b with
  | 1%positive =>
      let power := numerator b in
      if (0 <=? power)%Z then Ok (PyFraction (Qpower a power))
      else if Qeq_bool a 0 then Raise ZeroDivisionError
      else Ok (PyFraction (Qpower a power))
  | _ => Ok (PyFloat (libm_pow (round64 a) (round64 b)))
  end.

(** One pass through the body of the loop of [terms]. *)
Definition term (s z : Q) (k : Z) : result Q :=
  p <- Fraction_pow z (s + inject_Z k) ;;
  t2 <- Fraction_div (Fraction p) (s + inject_Z k) ;;
  f <- fact (inject_Z k) ;;
  c <- Fraction2 ((-1) ^ k) f ;;
  Ok (Qred (c * t2)).

Definition terms (s z : Q) : gen Q :=
  gen_for (term s z) (range 0 100) (Warn "More than 100 terms" Stop).

Definition gamma (s z : Q) : result (Q * list string) :=
  sum Fraction_add 0 (take_until (fun t => Qlt_bool (Qabs t) ε) (terms s z)).

Definition Gamma_Half (k : Q) : result Q :=
  match denominator k with
  | 1%positive => f <- fact (k - 1) ;; Ok (inject_Z f)
  | 2%positive =>
      let n := k - (1 # 2) in
      f2n <- fact (2 * n) ;;
      fn <- fact n ;;
      q <- Fraction_div (inject_Z f2n) (Qpower 4 (numerator n) * inject_Z fn) ;;
      Ok (q * sqrt_pi)
  | _ => Raise ValueError
  end.

(** [x / 2] for the [Union[Fraction, float]] that [cdf] accepts. *)
Definition halve (x : number) : number :=
  match x with
  | PyFraction q => PyFraction (q / 2)
  | PyFloat f => PyFloat (round64 (f / 2))
  end.

Definition cdf (x : number) (k : Z) : result (Q * list string) :=
  gw <- gamma (inject_Z k / 2) (Fraction (halve x)) ;;
  G <- Gamma_Half (inject_Z k / 2) ;;
  r <- Fraction_div (fst gw) G ;;
  Ok (1 - r, snd gw).

End Libm.

End ch16_ex3.

(** ** Bonus/chi_sq.py: the floating-point implementation *)

Module chi_sq.

(** Binary64 operations on the rationals that finite doubles denote. An
    [int] operand below [2^53] converts to [float] exactly, so small
    integers stand for their doubles. *)
Definition fadd (a b : Q) : Q := round64 (a + b).
Definition fsub (a b : Q) : Q := round64 (a - b).
Definition fmul (a b : Q) : Q := round64 (a * b).

Definition fdiv (a b : Q) : result Q :=
  if Qeq_bool b 0 then Raise ZeroDivisionError else Ok (round64 (a / b)).

(** [a / b] on two [int]s: the correctly rounded quotient. *)
Definition int_truediv (a b : Z) : result Q :=
  if (b =? 0)%Z then Raise ZeroDivisionError
  else Ok (round64 (inject_Z a / inject_Z b)).

Definition math_sqrt (x : Q) : result Q :=
  if Qlt_bool x 0 then Raise ValueError else Ok (round_sqrt x).

Definition math_pi : Q :=
  Eval vm_compute in round64 (3141592653589793238462643383279 # 1000000000000000000000000000000).

Definition math_e : Q :=
  Eval vm_compute in round64 (2718281828459045235360287471352 # 1000000000000000000000000000000).

(** [1E-8] in [gamma], [1E-6] in [Gamma_Half]. *)
Definition ε : Q := Eval vm_compute in round64 (1 # 100000000).
Definition ε' : Q := Eval vm_compute in round64 (1 # 1000000).

Definition fact (k : Z) : result Z :=
  if (k <? 2)%Z then Ok 1%Z
  else reduce Z.mul (range 2 (k + 1)).

(** Arithmetic of [Gamma1f] on what [Fraction.__pow__] returns: next to a
    [float], a [Fraction] operand is converted to the nearest [float]. *)
Definition number_truediv (n : ch16_ex3.number) (d : Q) : result ch16_ex3.number :=
  match n with
  | ch16_ex3.PyFraction q =>
      if Qeq_bool d 0 then Raise ZeroDivisionError
      else Ok (ch16_ex3.PyFraction (q / d))
  | ch16_ex3.PyFloat f => r <- fdiv f (round64 d) ;; Ok (ch16_ex3.PyFloat r)
  end.

Definition number_sub_int (n : ch16_ex3.number) (i : Z) : ch16_ex3.number :=
  match n with
  | ch16_ex3.PyFraction q => ch16_ex3.PyFraction (q - inject_Z i)
  | ch16_ex3.PyFloat f => ch16_ex3.PyFloat (fsub f (inject_Z i))
  end.

Definition number_mul (a b : ch16_ex3.number) : ch16_ex3.number :=
  match a, b with
  | ch16_ex3.PyFraction p, ch16_ex3.PyFraction q => ch16_ex3.PyFraction (p * q)
  | ch16_ex3.PyFraction p, ch16_ex3.PyFloat g => ch16_ex3.PyFloat (fmul (round64 p) g)
  | ch16_ex3.PyFloat f, ch16_ex3.PyFraction q => ch16_ex3.PyFloat (fmul f (round64 q))
  | ch16_ex3.PyFloat f, ch16_ex3.PyFloat g => ch16_ex3.PyFloat (fmul f g)
  end.

(** The [take_until_star] of [Gamma1f]: [function] may raise. *)
Fixpoint take_until_star {A : Type} (function : A -> result bool) (source : gen A)
  : gen A :=
  match source with
  | Yield v rest =>
      match function v with
      | Ok true => Stop
      | Ok false => Yield v (fun _ => take_until_star function (rest tt))
      | Raise e => Fail e
      end
  | Warn msg rest => Warn msg (take_until_star function rest)
  | Fail e => Fail e
  | Stop => Stop
  end.

Section Libm.

Variable libm_pow : Q -> Q -> Q.

(** One pass through the body of the loop of [terms]:
    [((-1)**k/fact(k))*(z**(s+k)/(s+k))]. *)
Definition term (s z : Q) (k : Z) : result Q :=
  f <- fact k ;;
  c <- int_truediv ((-1) ^ k) f ;;
  q <- fdiv (libm_pow z (fadd s (inject_Z k))) (fadd s (inject_Z k)) ;;
  Ok (fmul c q).

Definition terms (s z : Q) : gen Q :=
  gen_for (term s z) (range 0 1000) Stop.

Definition gamma (s z : Q) : result (Q * list string) :=
  sum fadd 0 (take_until (fun t => Qlt_bool (Qabs t) ε) (terms s z)).

(** Gergő Nemes' closed form. *)
Definition Gamma2 (z : Q) : result Q :=
  a <- fdiv (fmul 2 math_pi) z ;;
  t_1 <- math_sqrt a ;;
  b <- fdiv 1 (fmul 10 z) ;;
  c <- fdiv 1 (fsub (fmul 12 z) b) ;;
  t_2 <- fdiv (fadd z c) math_e ;;
  Ok (fmul t_1 (libm_pow t_2 z)).

(** [4**n*fact(n)] under [fact(2*n)]: an [int] for [n >= 0]; for [n < 0]
    Python's [4**n] is the [float] that [pow] returns. *)
Definition Gamma_Half (k : Q) : result Q :=
  if Qlt_bool (Qabs (fsub (fsub k (inject_Z (trunc k))) (1 # 2))) ε' then
    let n := trunc (fsub k (1 # 2)) in
    f2n <- fact (2 * n) ;;
    fn <- fact n ;;
    q <- (if (0 <=? n)%Z then int_truediv f2n (4 ^ n * fn)
          else fdiv (inject_Z f2n) (fmul (libm_pow 4 (inject_Z n)) (inject_Z fn))) ;;
    sp <- math_sqrt math_pi ;;
    Ok (fmul q sp)
  else Gamma2 k.

Definition cdf (x : Q) (k : Z) : result (Q * list string) :=
  s <- int_truediv k 2 ;;
  z <- fdiv x 2 ;;
  gw <- gamma s z ;;
  G <- Gamma_Half s ;;
  r <- fdiv (fst gw) G ;;
  Ok (fsub 1 r, snd gw).

(** [Gamma1f]: the product formula on [Fraction]s; [t] is the exact value
    [Fraction(t)] of the argument. One pass of [num_den] yields
    [(1+Fraction(1, k))**t, (1+t/k)]. *)
Definition num_den (t : Q) : gen (ch16_ex3.number * Q) :=
  gen_for (fun k =>
             f <- ch16_ex3.Fraction2 1 k ;;
             n <- ch16_ex3.Fraction_pow libm_pow (1 + f) t ;;
             q <- ch16_ex3.Fraction_div t (inject_Z k) ;;
             Ok (n, 1 + q))
    (range 1 1000) Stop.

(** [lambda n, d: abs(n/d-1) < ε]. *)
Definition nearly_one (nd : ch16_ex3.number * Q) : result bool :=
  r <- number_truediv (fst nd) (snd nd) ;;
  Ok (Qlt_bool (Qabs (ch16_ex3.Fraction (number_sub_int r 1))) ε).

Definition Gamma1f (t : Q) : result ch16_ex3.number :=
  terms <- tuple (take_until_star nearly_one (num_den t)) ;;
  pn <- reduce number_mul (map fst terms) ;;
  pd <- reduce Qmult (map snd terms) ;;
  number_truediv pn (t * pd).

End Libm.

End chi_sq.

(** * Specification vocabulary *)

(** [returns r P]: the call returns a value, and [P] holds of it. *)
Definition returns {A : Type} (r : result A) (P : A -> Prop) : Prop :=
  match r with
  | Ok a => P a
  | Raise _ => False
  end.

(** [test_result r b]: the boolean counterpart, for concrete calls. *)
Definition test_result {A : Type} (r : result A) (b : A -> bool) : bool :=
  match r with
  | Ok a => b a
  | Raise _ => false
  end.

(** [n!], by recursion. *)
Fixpoint factorial (n : nat) : Z :=
  match n with
  | O => 1%Z
  | S m => (Z.of_nat n * factorial m)%Z
  end.

(** The sum of a list of rationals, in lowest terms. *)
Definition Qsum (l : list Q) : Q := fold_right (fun t acc => Qred (t + acc)) 0 l.

(** The values a consumer gets through [take_until stop]: those before
    the first one of which [stop] holds. *)
Fixpoint before {A : Type} (stop : A -> bool) (l : list A) : list A :=
  match l with
  | [] => []
  | v :: l' => if stop v then [] else v :: before stop l'
  end.

(** A term counts as negligible when its magnitude is below [eps]. *)
Definition small (eps t : Q) : bool := Qlt_bool (Qabs t) eps.

(** ** The series, term by term *)

(** [z ** e] as [Chapter16/ch16_ex3.py] gets it, already through
    [Fraction(...)]: exact at an integer exponent, the double that [pow]
    returns otherwise. *)
Definition frac_power (libm_pow : Q -> Q -> Q) (z e : Q) : Q :=
  match ch16_ex3.denominator e with
  | 1%positive => Qpower z (ch16_ex3.numerator e)
  | _ => libm_pow (round64 z) (round64 e)
  end.

(** [(-1)^k / k! * z^(s+k) / (s+k)], in exact arithmetic around
    [frac_power]. *)
Definition frac_term (libm_pow : Q -> Q -> Q) (s z : Q) (k : Z) : Q :=
  inject_Z ((-1) ^ k) / inject_Z (factorial (Z.to_nat k))
  * (frac_power libm_pow z (s + inject_Z k) / (s + inject_Z k)).

(** The same term in binary64: every operation rounds. *)
Definition float_term (libm_pow : Q -> Q -> Q) (s z : Q) (k : Z) : Q :=
  chi_sq.fmul
    (round64 (inject_Z ((-1) ^ k) / inject_Z (factorial (Z.to_nat k))))
    (round64 (libm_pow z (chi_sq.fadd s (inject_Z k)) / chi_sq.fadd s (inject_Z k))).

(** ** The closed form at half-integers *)

(** [(2n)! / (4^n n!) * root_pi], the value of [Γ(n + 1/2)] for a given
    approximation [root_pi] of the square root of pi. *)
Definition Gamma_closed_form (root_pi : Q) (n : Z) : Q :=
  inject_Z (factorial (Z.to_nat (2 * n)))
  / (Qpower 4 n * inject_Z (factorial (Z.to_nat n))) * root_pi.

(** ** The series at an integer [s = m] *)

(** The magnitude [z^(m+j) / (j! (m+j))] of term [j]. *)
Definition series_magnitude (m : Z) (z : Q) (j : Z) : Q :=
  Qpower z (m + j) / (inject_Z (factorial (Z.to_nat j)) * inject_Z (m + j)).

(** By how much the magnitude of term [j] grows from [z1] to [z2]. *)
Definition series_gap (m : Z) (z1 z2 : Q) (j : Z) : Q :=
  series_magnitude m z2 j - series_magnitude m z1 j.

(** How many terms [gamma(s, z)] of the rational file adds up. *)
Definition terms_summed (libm_pow : Q -> Q -> Q) (s z : Q) : nat :=
  List.length (before (small ch16_ex3.ε) (map (frac_term libm_pow s z) (range 0 100))).

(** The Taylor polynomial of degree [n] of the exponential, at [y]. *)
Definition exp_polynomial (y : Q) (n : nat) : Q :=
  Qsum (map (fun i => Qpower y i / inject_Z (factorial (Z.to_nat i)))
          (range 0 (Z.of_nat n + 1))).

(** ** The product formula of [Gamma1f] at an integer *)

(** The pair that pass [k] of [num_den] yields at the integer [t]. *)
Definition num_den_at (t k : Z) : ch16_ex3.number * Q :=
  (ch16_ex3.PyFraction (Qpower (1 + inject_Z 1 / inject_Z k) t),
   1 + inject_Z t / inject_Z k).

(** The product of a list of rationals. *)
Definition Qprod (l : list Q) : Q := fold_right Qmult 1 l.

(** [(t-1)! * 1000^t * 999! / (999+t)!]: the 999 factors of the product
    formula, multiplied out. *)
Definition Gamma1f_closed_form (t : Z) : Q :=
  inject_Z (factorial (Z.to_nat (t - 1)))
  * (Qpower 1000 t * inject_Z (factorial 999)
     / inject_Z (factorial (Z.to_nat (999 + t)))).

(** ** The inputs of the doctests of [cdf] *)

(** The [(x, k)] at which both files document [cdf]; [x] as the decimal
    literal of the source. *)
Definition doctest_table : list (Q * Z) :=
  [ (4 # 1000, 1); (2 # 100, 1); (6 # 100, 1); (15 # 100, 1); (46 # 100, 1);
    (107 # 100, 1); (164 # 100, 1); (271 # 100, 1); (384 # 100, 1);
    (664 # 100, 1); (1083 # 100, 1);
    (394 # 100, 10); (2959 # 100, 10);
    (1918 # 100, 6); (125916 # 10000, 6);
    (12131 # 1000, 4); (9488 # 1000, 4) ]%Z.

(** Both files agree at the literal [x] and [k] to within [tol]: the
    literal denotes the nearest double, which the rational file takes
    through [Fraction]. *)
Definition agree_within (libm_pow : Q -> Q -> Q) (tol : Q) (xk : Q * Z) : bool :=
  test_result (ch16_ex3.cdf libm_pow (ch16_ex3.PyFloat (round64 (fst xk))) (snd xk))
    (fun r =>
       test_result (chi_sq.cdf libm_pow (round64 (fst xk)) (snd xk))
         (fun f => Qle_bool (Qabs (fst r - fst f)) tol)).

(** Both files return at the literal [x] and [k], and their values are
    more than [lo] and at most [hi] apart. *)
Definition apart_between (libm_pow : Q -> Q -> Q) (lo hi : Q) (xk : Q * Z) : bool :=
  test_result (ch16_ex3.cdf libm_pow (ch16_ex3.PyFloat (round64 (fst xk))) (snd xk))
    (fun r =>
       test_result (chi_sq.cdf libm_pow (round64 (fst xk)) (snd xk))
         (fun f => negb (Qle_bool (Qabs (fst r - fst f)) lo) &&
                   Qle_bool (Qabs (fst r - fst f)) hi)).

(** * The run time: ranges, reduce, generators *)

Section Runtime.

Lemma range_nil (lo hi : Z) : (hi <= lo)%Z -> range lo hi = [].
Proof.
  intros H. unfold range.
  replace (Z.to_nat (hi - lo)) with O by lia. reflexivity.
Qed.

Lemma range_cons (lo hi : Z) :
  (lo < hi)%Z -> range lo hi = lo :: range (lo + 1) hi.
Proof.
  intros H. unfold range.
  replace (Z.to_nat (hi - lo)) with (S (Z.to_nat (hi - (lo + 1)))) by lia.
  rewrite <- cons_seq, <- seq_shift, map_cons, map_map.
  f_equal; [simpl; lia|].
  apply map_ext. intros i. lia.
Qed.

Lemma range_snoc (lo hi : Z) :
  (lo <= hi)%Z -> range lo (hi + 1) = range lo hi ++ [hi].
Proof.
  intros H. unfold range.
  replace (Z.to_nat (hi + 1 - lo)) with (Z.to_nat (hi - lo) + 1)%nat by lia.
  rewrite seq_app, map_app. simpl. do 2 f_equal. lia.
Qed.

Lemma range_length (lo hi : Z) : List.length (range lo hi) = Z.to_nat (hi - lo).
Proof. unfold range. now rewrite length_map, length_seq. Qed.

Lemma in_range (lo hi k : Z) : In k (range lo hi) <-> (lo <= k < hi)%Z.
Proof.
  unfold range. rewrite in_map_iff. split.
  - intros (i & <- & Hi). apply in_seq in Hi. lia.
  - intros Hk. exists (Z.to_nat (k - lo)). split; [lia|].
    apply in_seq. lia.
Qed.

Lemma factorial_pos (n : nat) : (1 <= factorial n)%Z.
Proof.
  induction n as [|n IH]; [simpl; lia|].
  change (factorial (S n)) with (Z.of_nat (S n) * factorial n)%Z. nia.
Qed.

(** [reduce(operator.mul, range(2, n+1))] computes [n!] from [2] on. *)
Lemma reduce_mul_range (n : nat) :
  (2 <= n)%nat ->
  reduce Z.mul (range 2 (Z.of_nat n + 1)) = Ok (factorial n).
Proof.
  intros Hn. rewrite range_cons by lia. unfold reduce. f_equal.
  change (2 + 1)%Z with 3%Z.
  induction n as [|n IH]; [lia|].
  destruct (Nat.eq_dec n 1) as [->|Hn1]; [reflexivity|].
  replace (Z.of_nat (S n) + 1)%Z with ((Z.of_nat n + 1) + 1)%Z by lia.
  rewrite range_snoc by lia.
  rewrite fold_left_app, IH by lia.
  cbn [fold_left]. change (factorial (S n)) with (Z.of_nat (S n) * factorial n)%Z.
  lia.
Qed.

Context {A : Type}.
Variables (body : Z -> result A) (val : Z -> A).
Variables (stop : A -> bool) (add : A -> A -> A).

(** Summing what [take_until] lets through of a [for] loop whose body
    returns: the loop ends early at the first value of which [stop] holds,
    and what comes after the loop happens only if there is none. *)
Lemma sum_take_until_gen_for (ks : list Z) (after : gen A) :
  (forall k, In k ks -> body k = Ok (val k)) ->
  forall acc ws,
    sum_from add acc ws (take_until stop (gen_for body ks after)) =
    if existsb stop (map val ks)
    then Ok (fold_left add (before stop (map val ks)) acc, ws)
    else sum_from add (fold_left add (map val ks) acc) ws (take_until stop after).
Proof.
  induction ks as [|k ks IH]; intros Hbody acc ws; [reflexivity|].
  cbn [gen_for map existsb before].
  rewrite (Hbody k) by now left.
  cbn [take_until]. destruct (stop (val k)); [reflexivity|].
  cbn [sum_from orb fold_left]. apply IH.
  intros k' Hk'. apply Hbody. now right.
Qed.

Lemma before_length (l : list A) : (List.length (before stop l) <= List.length l)%nat.
Proof.
  induction l as [|v l IH]; simpl; [lia|].
  destruct (stop v); simpl; lia.
Qed.

Lemma before_all (l : list A) : existsb stop l = false -> before stop l = l.
Proof.
  induction l as [|v l IH]; simpl; [reflexivity|].
  destruct (stop v); simpl; [discriminate|]. intros H. now rewrite IH.
Qed.

Lemma before_prefix (l : list A) : exists l', l = before stop l ++ l'.
Proof.
  induction l as [|v l [l' IH]]; simpl; [now exists []|].
  destruct (stop v); [now exists (v :: l)|].
  exists l'. simpl. now f_equal.
Qed.

Lemma before_not_stop (l : list A) (v : A) : In v (before stop l) -> stop v = false.
Proof.
  induction l as [|u l IH]; simpl; [tauto|].
  destruct (stop u) eqn:E; simpl; [tauto|].
  intros [<-|H]; auto.
Qed.

End Runtime.

(** * Rationals and factorials *)

Lemma Qlt_bool_iff (a b : Q) : Qlt_bool a b = true <-> a < b.
Proof.
  unfold Qlt_bool. rewrite negb_true_iff. split.
  - intros H. apply Qnot_le_lt. intros Hle.
    apply Qle_bool_iff in Hle. congruence.
  - intros H. destruct (Qle_bool b a) eqn:E; [|reflexivity].
    apply Qle_bool_iff in E. exfalso. eapply Qlt_not_le; eauto.
Qed.

Lemma Qlt_bool_false (a b : Q) : Qlt_bool a b = false <-> b <= a.
Proof.
  unfold Qlt_bool. rewrite negb_false_iff. apply Qle_bool_iff.
Qed.

Lemma Qlt_bool_compat (a a' b b' : Q) :
  a == a' -> b == b' -> Qlt_bool a b = Qlt_bool a' b'.
Proof.
  intros Ha Hb.
  destruct (Qlt_bool a b) eqn:E, (Qlt_bool a' b') eqn:E'; try reflexivity.
  - apply Qlt_bool_iff in E. apply Qlt_bool_false in E'.
    rewrite Ha, Hb in E. exfalso. eapply Qlt_not_le; eauto.
  - apply Qlt_bool_iff in E'. apply Qlt_bool_false in E.
    rewrite Ha, Hb in E. exfalso. eapply Qlt_not_le; eauto.
Qed.

Lemma Qeq_bool_false (a b : Q) : Qeq_bool a b = false <-> ~ a == b.
Proof.
  split.
  - intros H Hab. apply Qeq_bool_iff in Hab. congruence.
  - intros H. destruct (Qeq_bool a b) eqn:E; [|reflexivity].
    apply Qeq_bool_iff in E. contradiction.
Qed.

Lemma small_compat (eps a b : Q) : a == b -> small eps a = small eps b.
Proof.
  intros H. unfold small. apply Qlt_bool_compat; [|reflexivity].
  now rewrite H.
Qed.

Lemma trunc_inject_Z (k : Z) : trunc (inject_Z k) = k.
Proof. unfold trunc. simpl. apply Z.quot_1_r. Qed.

Lemma inject_Z_lt (a b : Z) : (a < b)%Z <-> inject_Z a < inject_Z b.
Proof. unfold Qlt. simpl. lia. Qed.

(** [fact] of [Bonus/chi_sq.py]. *)
Lemma float_fact_below_2 (k : Z) : (k < 2)%Z -> chi_sq.fact k = Ok 1%Z.
Proof.
  intros H. unfold chi_sq.fact.
  destruct (Z.ltb_spec k 2); [reflexivity|lia].
Qed.

Lemma float_fact_factorial (k : Z) :
  (0 <= k)%Z -> chi_sq.fact k = Ok (factorial (Z.to_nat k)).
Proof.
  intros H. unfold chi_sq.fact.
  destruct (Z.ltb_spec k 2) as [Hlt|Hge].
  - assert (Hk : k = 0%Z \/ k = 1%Z) by lia.
    destruct Hk as [-> | ->]; reflexivity.
  - rewrite <- (Z2Nat.id k) at 1 by lia.
    apply reduce_mul_range. lia.
Qed.

(** [fact] of [Chapter16/ch16_ex3.py], at an integer. *)
Lemma frac_fact_int (k : Z) : ch16_ex3.fact (inject_Z k) = chi_sq.fact k.
Proof.
  unfold ch16_ex3.fact, chi_sq.fact. rewrite trunc_inject_Z.
  destruct (Z.ltb_spec k 2) as [Hlt|Hge].
  - assert (E : Qlt_bool (inject_Z k) 2 = true); [|now rewrite E].
    apply Qlt_bool_iff. now apply (inject_Z_lt k 2).
  - assert (E : Qlt_bool (inject_Z k) 2 = false); [|now rewrite E].
    apply Qlt_bool_false. unfold Qle. simpl. lia.
Qed.

(** [fact] depends on the value of its argument, not on how it is
    written. *)
Lemma frac_fact_integral (q : Q) (k : Z) :
  q == inject_Z k -> ch16_ex3.fact q = chi_sq.fact k.
Proof.
  intros H. rewrite <- frac_fact_int. unfold ch16_ex3.fact.
  rewrite (Qlt_bool_compat q (inject_Z k) 2 2 H (Qeq_refl 2)).
  replace (trunc q) with (trunc (inject_Z k)); [reflexivity|].
  rewrite trunc_inject_Z. unfold trunc.
  unfold Qeq in H. simpl in H. rewrite Z.mul_1_r in H. rewrite H.
  symmetry. apply Z.quot_mul. discriminate.
Qed.

(** * The incomplete gamma series of Chapter16/ch16_ex3.py *)

Lemma Qred_num_pos (q : Q) : 0 < q -> (0 < Qnum (Qred q))%Z.
Proof.
  intros H. rewrite <- (Qred_correct q) in H.
  unfold Qlt in H. simpl in H. lia.
Qed.

Section FracSeries.

Variable libm_pow : Q -> Q -> Q.
Variables s z : Q.
Hypothesis s_pos : 0 < s.

Lemma frac_exponent_pos (k : Z) : (0 <= k)%Z -> 0 < s + inject_Z k.
Proof.
  intros Hk. assert (0 <= inject_Z k) by (unfold Qle; simpl; lia). lra.
Qed.

Lemma frac_pow_ok (k : Z) :
  (0 <= k)%Z ->
  exists p, ch16_ex3.Fraction_pow libm_pow z (s + inject_Z k) = Ok p /\
            ch16_ex3.Fraction p = frac_power libm_pow z (s + inject_Z k).
Proof.
  intros Hk. pose proof (frac_exponent_pos k Hk) as Hpos.
  apply Qred_num_pos in Hpos.
  unfold ch16_ex3.Fraction_pow, frac_power, ch16_ex3.numerator.
  destruct (ch16_ex3.denominator (s + inject_Z k));
    try (eexists; split; reflexivity).
  destruct (Z.leb_spec 0 (Qnum (Qred (s + inject_Z k)))); [|lia].
  eexists; split; reflexivity.
Qed.

Lemma frac_term_ok (k : Z) :
  (0 <= k)%Z ->
  ch16_ex3.term libm_pow s z k = Ok (Qred (frac_term libm_pow s z k)).
Proof.
  intros Hk. unfold ch16_ex3.term.
  destruct (frac_pow_ok k Hk) as (p & -> & Hp). cbn [bind].
  unfold ch16_ex3.Fraction_div.
  assert (E : Qeq_bool (s + inject_Z k) 0 = false).
  { apply Qeq_bool_false. pose proof (frac_exponent_pos k Hk). lra. }
  rewrite E. cbn [bind].
  rewrite frac_fact_int, float_fact_factorial by assumption. cbn [bind].
  unfold ch16_ex3.Fraction2.
  pose proof (factorial_pos (Z.to_nat k)).
  destruct (Z.eqb_spec (factorial (Z.to_nat k)) 0); [lia|].
  cbn [bind]. unfold frac_term. now rewrite Hp.
Qed.

End FracSeries.

Lemma Qsum_cons (t : Q) (l : list Q) : Qsum (t :: l) == t + Qsum l.
Proof. unfold Qsum. cbn [fold_right]. apply Qred_correct. Qed.

Lemma Qsum_plain (l : list Q) : Qsum l == fold_right Qplus 0 l.
Proof.
  induction l as [|t l IH]; [reflexivity|].
  rewrite Qsum_cons, IH. reflexivity.
Qed.

Lemma fold_left_Fraction_add (l : list Q) (acc : Q) :
  fold_left ch16_ex3.Fraction_add l acc == acc + Qsum l.
Proof.
  revert acc. induction l as [|t l IH]; intros acc.
  - simpl. change (Qsum []) with 0. lra.
  - cbn [fold_left]. rewrite IH, Qsum_cons.
    unfold ch16_ex3.Fraction_add. rewrite Qred_correct. lra.
Qed.

Lemma existsb_small_Qred (eps : Q) (l : list Q) :
  existsb (small eps) (map Qred l) = existsb (small eps) l.
Proof.
  induction l as [|t l IH]; simpl; [reflexivity|].
  now rewrite IH, (small_compat eps (Qred t) t (Qred_correct t)).
Qed.

Lemma Qsum_before_Qred (eps : Q) (l : list Q) :
  Qsum (before (small eps) (map Qred l)) == Qsum (before (small eps) l).
Proof.
  induction l as [|t l IH]; [reflexivity|].
  cbn [map before].
  rewrite (small_compat eps (Qred t) t (Qred_correct t)).
  destruct (small eps t); [reflexivity|].
  now rewrite !Qsum_cons, IH, Qred_correct.
Qed.

(** The outcome of [gamma(s, z)] for [s > 0]: no exception; the sum stops
    before the first negligible term among the 100 that [terms] can
    yield, silently; if none of the 100 is negligible, all are summed and
    the warning is emitted. *)
Lemma frac_gamma_outcome (libm_pow : Q -> Q -> Q) (s z : Q) :
  0 < s ->
  let ts := map (frac_term libm_pow s z) (range 0 100) in
  exists v,
    v == Qsum (before (small ch16_ex3.ε) ts) /\
    ch16_ex3.gamma libm_pow s z =
    Ok (v, if existsb (small ch16_ex3.ε) ts then []
           else ["More than 100 terms"%string]).
Proof.
  intros Hs ts. unfold ch16_ex3.gamma, ch16_ex3.terms, sum.
  rewrite (sum_take_until_gen_for _ (fun k => Qred (frac_term libm_pow s z k))).
  2:{ intros k Hk. apply in_range in Hk. apply frac_term_ok; [assumption|lia]. }
  fold (small ch16_ex3.ε).
  rewrite <- (map_map (frac_term libm_pow s z) Qred). fold ts.
  rewrite existsb_small_Qred.
  destruct (existsb (small ch16_ex3.ε) ts) eqn:E.
  - eexists; split; [|reflexivity].
    rewrite fold_left_Fraction_add, Qsum_before_Qred. lra.
  - cbn [take_until sum_from app]. eexists; split; [|reflexivity].
    rewrite fold_left_Fraction_add.
    rewrite <- (before_all (small ch16_ex3.ε) (map Qred ts))
      by now rewrite existsb_small_Qred.
    rewrite Qsum_before_Qred. lra.
Qed.

(** * Binary64 rounding *)

Lemma round64_compat (a b : Q) : a == b -> round64 a = round64 b.
Proof.
  intros H. unfold round64. now rewrite (Qred_complete a b H).
Qed.

Lemma pow2_pos (e : Z) : 0 < pow2 e.
Proof. apply Qpower_0_lt. reflexivity. Qed.

Lemma pow2_le (e e' : Z) : (e <= e')%Z -> pow2 e <= pow2 e'.
Proof. intros H. apply Qpower_le_compat_l; [assumption|discriminate]. Qed.

Lemma pow2_nonneg (e : Z) : (0 <= e)%Z -> pow2 e == inject_Z (2 ^ e).
Proof. intros H. unfold pow2. now rewrite Zpower_Qpower. Qed.

Lemma ilog2_lower (a : Q) : 0 < a -> pow2 (ilog2 a) <= a.
Proof.
  intros Ha. unfold ilog2.
  set (x := Z.log2 (Qnum a)). set (y := Z.log2 (Zpos (Qden a))).
  destruct (Qle_bool (pow2 (x - y)) a) eqn:E; [now apply Qle_bool_iff|].
  assert (Hn : (0 < Qnum a)%Z) by (unfold Qlt in Ha; simpl in Ha; lia).
  assert (Hx : (0 <= x)%Z) by apply Z.log2_nonneg.
  assert (Hy : (0 <= y)%Z) by apply Z.log2_nonneg.
  pose proof (Z.log2_spec (Qnum a) Hn) as [Hx1 _]. fold x in Hx1.
  pose proof (Z.log2_spec (Zpos (Qden a)) eq_refl) as [_ Hy2]. fold y in Hy2.
  replace (x - y - 1)%Z with (x - (y + 1))%Z by lia.
  unfold pow2. rewrite Qpower_minus by discriminate.
  fold (pow2 x) (pow2 (y + 1)). rewrite !pow2_nonneg by lia.
  destruct a as [n d]. simpl in *. rewrite (Qmake_Qdiv n d).
  assert (Hd : 0 < inject_Z (Zpos d)) by reflexivity.
  assert (Hp : 0 < inject_Z (2 ^ (y + 1))).
  { rewrite <- pow2_nonneg by lia. apply pow2_pos. }
  apply Qle_shift_div_l; [assumption|].
  unfold Qdiv. rewrite <- Qmult_assoc, (Qmult_comm (/ _)), Qmult_assoc.
  apply Qle_shift_div_r; [assumption|].
  rewrite <- !inject_Z_mult.
  replace (Z.succ y) with (y + 1)%Z in Hy2 by lia.
  unfold Qle. simpl. nia.
Qed.

Lemma round_half_even_floor (r : Q) : (Qfloor r <= round_half_even r)%Z.
Proof.
  unfold round_half_even.
  destruct (Qcompare _ _); [destruct (Z.even _)| |]; lia.
Qed.

Lemma round_half_even_compat (a b : Q) :
  a == b -> round_half_even a = round_half_even b.
Proof.
  intros H. unfold round_half_even. cbv zeta.
  rewrite (Qfloor_comp a b H).
  assert (E : a - inject_Z (Qfloor b) == b - inject_Z (Qfloor b)) by now rewrite H.
  now rewrite (Qcompare_comp _ _ E _ _ (Qeq_refl (1 # 2))).
Qed.

Lemma round_half_even_Z (m : Z) : round_half_even (inject_Z m) = m.
Proof.
  unfold round_half_even. cbv zeta. rewrite Qfloor_Z.
  assert (E : inject_Z m - inject_Z m == 0) by ring.
  now rewrite (Qcompare_comp _ _ E _ _ (Qeq_refl (1 # 2))).
Qed.

(** The exponent [round64] works at is not above the magnitude of a normal
    number. *)
Lemma round64_exponent_le (a : Q) :
  pow2 (-1022) <= a -> pow2 (Z.max (ilog2 a - 52) emin) <= a.
Proof.
  intros Ha.
  assert (Hpos : 0 < a) by (eapply Qlt_le_trans; [apply pow2_pos|eassumption]).
  destruct (Z.max_spec (ilog2 a - 52) emin) as [[_ ->]|[_ ->]].
  - eapply Qle_trans; [|eassumption]. apply pow2_le. unfold emin. lia.
  - eapply Qle_trans; [|apply ilog2_lower; assumption]. apply pow2_le. lia.
Qed.

(** A number at or above the least normal double does not round to
    zero. *)
Lemma round64_pos (q : Q) : pow2 (-1022) <= q -> 0 < round64 q.
Proof.
  intros Hq.
  assert (Hpos : 0 < q) by (eapply Qlt_le_trans; [apply pow2_pos|eassumption]).
  unfold round64. set (q' := Qred q).
  assert (Hq' : q' == q) by apply Qred_correct.
  assert (E0 : Qeq_bool q' 0 = false) by (apply Qeq_bool_false; lra).
  assert (E1 : Qle_bool 0 q' = true) by (apply Qle_bool_iff; lra).
  rewrite E0, E1. rewrite Qred_correct.
  set (a := Qabs q').
  assert (Ha : a == q) by (unfold a; rewrite Qabs_pos; lra).
  assert (Hea : pow2 (Z.max (ilog2 a - 52) emin) <= a).
  { apply round64_exponent_le. now rewrite Ha. }
  set (e := Z.max (ilog2 a - 52) emin) in *.
  pose proof (pow2_pos e) as He.
  assert (Hr : 1 <= a / pow2 e).
  { apply Qle_shift_div_l; [assumption|]. now rewrite Qmult_1_l. }
  pose proof (round_half_even_floor (a / pow2 e)) as Hm.
  apply Qfloor_resp_le in Hr. change (Qfloor 1) with 1%Z in Hr.
  apply Qmult_lt_0_compat; [|assumption].
  unfold Qlt. simpl. lia.
Qed.

Lemma Qred_inject_Z (n : Z) : Qred (inject_Z n) = inject_Z n.
Proof. apply Qcanon.Qred_identity. apply Z.gcd_1_r. Qed.

(** Integers of up to 53 bits are doubles. *)
Lemma round64_int (n : Z) :
  (0 <= n < 2 ^ 53)%Z -> round64 (inject_Z n) = inject_Z n.
Proof.
  intros Hn. unfold round64. rewrite Qred_inject_Z.
  destruct (Z.eq_dec n 0) as [->|Hn0]; [reflexivity|].
  assert (E0 : Qeq_bool (inject_Z n) 0 = false).
  { apply Qeq_bool_false. unfold Qeq. simpl. lia. }
  assert (E1 : Qle_bool 0 (inject_Z n) = true).
  { apply Qle_bool_iff. unfold Qle. simpl. lia. }
  rewrite E0, E1.
  assert (Ea : Qabs (inject_Z n) = inject_Z n).
  { unfold Qabs, inject_Z. f_equal. apply Z.abs_eq. lia. }
  rewrite Ea.
  pose proof (Z.log2_spec n ltac:(lia)) as [Hl1 Hl2].
  assert (Hl0 : (0 <= Z.log2 n)%Z) by apply Z.log2_nonneg.
  assert (Hl : (Z.log2 n < 53)%Z).
  { apply Z.log2_lt_pow2; lia. }
  assert (El : ilog2 (inject_Z n) = Z.log2 n).
  { unfold ilog2. simpl Qnum. simpl Qden. change (Z.log2 1) with 0%Z.
    rewrite Z.sub_0_r.
    assert (E : Qle_bool (pow2 (Z.log2 n)) (inject_Z n) = true); [|now rewrite E].
    apply Qle_bool_iff. rewrite pow2_nonneg by assumption.
    unfold Qle. simpl. lia. }
  rewrite El. unfold emin. rewrite Z.max_l by lia.
  set (L := Z.log2 n) in *.
  assert (Er : inject_Z n / pow2 (L - 52) == inject_Z (n * 2 ^ (52 - L))).
  { unfold pow2. replace (L - 52)%Z with (- (52 - L))%Z by lia.
    rewrite Qpower_opp. unfold Qdiv. rewrite Qinv_involutive.
    fold (pow2 (52 - L)). rewrite pow2_nonneg by lia.
    now rewrite inject_Z_mult. }
  rewrite (round_half_even_compat _ _ Er), round_half_even_Z.
  transitivity (Qred (inject_Z n)); [|apply Qred_inject_Z].
  apply Qred_complete.
  rewrite <- Er. field.
  pose proof (pow2_pos (L - 52)). lra.
Qed.

(** * The incomplete gamma series of Bonus/chi_sq.py *)

Section FloatSeries.

Variable libm_pow : Q -> Q -> Q.
Variables s z : Q.
Hypothesis s_normal : pow2 (-1022) <= s.

Lemma float_exponent_nonzero (k : Z) :
  (0 <= k)%Z -> Qeq_bool (chi_sq.fadd s (inject_Z k)) 0 = false.
Proof.
  intros Hk. apply Qeq_bool_false.
  assert (H : 0 < chi_sq.fadd s (inject_Z k)); [|lra].
  apply round64_pos.
  assert (0 <= inject_Z k) by (unfold Qle; simpl; lia). lra.
Qed.

Lemma float_term_ok (k : Z) :
  (0 <= k)%Z -> chi_sq.term libm_pow s z k = Ok (float_term libm_pow s z k).
Proof.
  intros Hk. unfold chi_sq.term.
  rewrite float_fact_factorial by assumption. cbn [bind].
  unfold chi_sq.int_truediv.
  pose proof (factorial_pos (Z.to_nat k)).
  destruct (Z.eqb_spec (factorial (Z.to_nat k)) 0); [lia|]. cbn [bind].
  unfold chi_sq.fdiv. rewrite float_exponent_nonzero by assumption.
  reflexivity.
Qed.

(** The outcome of [gamma(s, z)] for a normal [s > 0]: no exception and no
    warning; the terms before the first negligible one among the 1000
    that [terms] can yield are added up from the left, in binary64. *)
Lemma float_gamma_outcome :
  let ts := map (float_term libm_pow s z) (range 0 1000) in
  chi_sq.gamma libm_pow s z =
  Ok (fold_left chi_sq.fadd (before (small chi_sq.ε) ts) 0, []).
Proof.
  intros ts. unfold chi_sq.gamma, chi_sq.terms, sum.
  rewrite (sum_take_until_gen_for _ (float_term libm_pow s z)).
  2:{ intros k Hk. apply in_range in Hk. apply float_term_ok. lia. }
  fold (small chi_sq.ε). fold ts.
  destruct (existsb (small chi_sq.ε) ts) eqn:E; [reflexivity|].
  cbn [take_until sum_from]. now rewrite before_all.
Qed.

End FloatSeries.

(** * Deciding what a concrete call returns *)

Lemma returns_by_test {A : Type} (r : result A) (b : A -> bool) (P : A -> Prop) :
  (forall a, b a = true -> P a) -> test_result r b = true -> returns r P.
Proof.
  intros HP. destruct r as [a|e]; simpl; [apply HP|discriminate].
Qed.

Lemma returns_impl {A : Type} (r : result A) (P P' : A -> Prop) :
  (forall a, P a -> P' a) -> returns r P -> returns r P'.
Proof. intros H. destruct r; simpl; auto. Qed.

Lemma returns_Ok {A : Type} (r : result A) (P : A -> Prop) :
  returns r P -> exists a, r = Ok a /\ P a.
Proof. destruct r as [a|e]; simpl; [eauto|tauto]. Qed.

Lemma Qeq_bool_neg (a b : Q) : negb (Qeq_bool a b) = true -> ~ a == b.
Proof. rewrite negb_true_iff. apply Qeq_bool_false. Qed.

(** * Factorial outside its domain *)

(** C7, as amended. For every integer [n < 2], every negative [n]
    included, [fact(n)] returns [1] in both files: the guard [k < 2]
    answers before any product is formed, and no exception is raised. *)
Theorem fact_below_two_returns_one (n : Z) :
  (n < 2)%Z ->
  chi_sq.fact n = Ok 1%Z /\ ch16_ex3.fact (inject_Z n) = Ok 1%Z.
Proof.
  intros Hn. rewrite frac_fact_int.
  split; now apply float_fact_below_2.
Qed.

Lemma fact_below_two_returns_one_witness :
  chi_sq.fact (-3) = Ok 1%Z /\ ch16_ex3.fact (inject_Z (-3)) = Ok 1%Z.
Proof. apply (fact_below_two_returns_one (-3)). reflexivity. Defined.

(** C7, as stated, fails at [n = -1]: the call returns a value. *)
Lemma fact_minus_one_returns :
  returns (chi_sq.fact (-1)) (fun v => v = 1%Z) /\
  returns (ch16_ex3.fact (inject_Z (-1))) (fun v => v = 1%Z).
Proof. split; reflexivity. Qed.

(** * The incomplete gamma evaluator *)





(** * The hybrid selector of Chapter16/ch16_ex3.py *)

Lemma inject_Z_pos (n : Z) : (0 < n)%Z -> 0 < inject_Z n.
Proof. intros H. unfold Qlt. cbn [Qnum Qden inject_Z]. lia. Qed.

Lemma Qred_integral (k : Q) (n : Z) : k == inject_Z n -> Qred k = inject_Z n.
Proof.
  intros H. rewrite (Qred_complete _ _ H). apply Qred_inject_Z.
Qed.

Lemma Qred_half_integral (k : Q) (n : Z) :
  k == inject_Z n + (1 # 2) -> Qred k = (2 * n + 1 # 2).
Proof.
  intros H.
  assert (E : k == (2 * n + 1 # 2)).
  { rewrite H. unfold Qeq, Qplus. cbn [Qnum Qden inject_Z]. lia. }
  rewrite (Qred_complete _ _ E). apply Qcanon.Qred_identity.
  cbn [Qnum Qden].
  rewrite Z.gcd_comm. replace (2 * n + 1)%Z with (1 + n * 2)%Z by lia.
  now rewrite Z.gcd_add_mult_diag_r.
Qed.

(** At an integer the selector is [fact(k - 1)], exactly. *)
Lemma frac_Gamma_Half_integer (k : Q) (n : Z) :
  k == inject_Z n ->
  ch16_ex3.Gamma_Half k = (f <- chi_sq.fact (n - 1) ;; Ok (inject_Z f)).
Proof.
  intros H. unfold ch16_ex3.Gamma_Half, ch16_ex3.denominator.
  rewrite (Qred_integral k n H). simpl Qden.
  rewrite (frac_fact_integral (k - 1) (n - 1)); [reflexivity|].
  rewrite H. unfold Zminus. rewrite inject_Z_plus. reflexivity.
Qed.

(** At [n + 1/2] it is the closed form around the constant [sqrt_pi]. *)
Lemma frac_Gamma_Half_half_integer (k : Q) (n : Z) :
  k == inject_Z n + (1 # 2) -> (0 <= n)%Z ->
  returns (ch16_ex3.Gamma_Half k)
    (fun G => G == Gamma_closed_form ch16_ex3.sqrt_pi n).
Proof.
  intros H Hn. unfold ch16_ex3.Gamma_Half, ch16_ex3.denominator.
  rewrite (Qred_half_integral k n H). simpl Qden.
  assert (En : k - (1 # 2) == inject_Z n) by (rewrite H; ring).
  rewrite (frac_fact_integral (2 * (k - (1 # 2))) (2 * n)).
  2:{ rewrite En, inject_Z_mult. reflexivity. }
  rewrite (frac_fact_integral _ _ En).
  rewrite !float_fact_factorial by lia. cbn [bind].
  unfold ch16_ex3.numerator. rewrite (Qred_integral _ _ En). simpl Qnum.
  unfold ch16_ex3.Fraction_div.
  assert (E : Qeq_bool (4 ^ n * inject_Z (factorial (Z.to_nat n))) 0 = false).
  { apply Qeq_bool_false.
    pose proof (factorial_pos (Z.to_nat n)).
    assert (0 < 4 ^ n) by (apply Qpower_0_lt; reflexivity).
    assert (0 < inject_Z (factorial (Z.to_nat n))) by (apply inject_Z_pos; lia).
    assert (0 < 4 ^ n * inject_Z (factorial (Z.to_nat n)))
      by now apply Qmult_lt_0_compat.
    lra. }
  rewrite E. cbn [bind returns]. reflexivity.
Qed.

(** Anything else is refused. *)
Lemma frac_Gamma_Half_other (k : Q) :
  ch16_ex3.denominator k <> 1%positive -> ch16_ex3.denominator k <> 2%positive ->
  ch16_ex3.Gamma_Half k = Raise ValueError.
Proof.
  intros H1 H2. unfold ch16_ex3.Gamma_Half.
  destruct (ch16_ex3.denominator k) as [p|p|]; try reflexivity.
  - destruct p; try reflexivity. congruence.
  - congruence.
Qed.

Lemma Gamma_closed_form_pos (root_pi : Q) (n : Z) :
  0 < root_pi -> 0 < Gamma_closed_form root_pi n.
Proof.
  intros Hr. unfold Gamma_closed_form.
  pose proof (factorial_pos (Z.to_nat n)).
  pose proof (factorial_pos (Z.to_nat (2 * n))).
  assert (0 < 4 ^ n) by (apply Qpower_0_lt; reflexivity).
  assert (0 < inject_Z (factorial (Z.to_nat n))) by (apply inject_Z_pos; lia).
  assert (0 < inject_Z (factorial (Z.to_nat (2 * n)))) by (apply inject_Z_pos; lia).
  apply Qmult_lt_0_compat; [|assumption].
  apply Qlt_shift_div_l; [now apply Qmult_lt_0_compat|lra].
Qed.

(** For the arguments [cdf] passes, the selector returns a positive
    number. *)
Lemma frac_Gamma_Half_of_degrees (k : Z) :
  (1 <= k)%Z -> returns (ch16_ex3.Gamma_Half (inject_Z k / 2)) (fun G => 0 < G).
Proof.
  intros Hk. destruct (Z.even k) eqn:Ev.
  - apply Z.even_spec in Ev. destruct Ev as [m ->].
    rewrite (frac_Gamma_Half_integer _ m).
    2:{ rewrite inject_Z_mult. field. }
    rewrite float_fact_factorial by lia. cbn [bind returns].
    pose proof (factorial_pos (Z.to_nat (m - 1))). apply inject_Z_pos. lia.
  - assert (Hodd : Z.odd k = true) by (rewrite <- Z.negb_even, Ev; reflexivity).
    apply Z.odd_spec in Hodd. destruct Hodd as [m ->].
    eapply returns_impl; [|apply (frac_Gamma_Half_half_integer _ m); [|lia]].
    + intros G HG. rewrite HG. now apply Gamma_closed_form_pos.
    + rewrite inject_Z_plus, inject_Z_mult. field.
Qed.

(** * Normal numbers stay normal under rounding *)

Lemma round64_exponent_normal (a : Q) :
  pow2 (-1022) <= a -> pow2 (52 + Z.max (ilog2 a - 52) emin) <= a.
Proof.
  intros Ha.
  assert (Hpos : 0 < a) by (eapply Qlt_le_trans; [apply pow2_pos|eassumption]).
  destruct (Z.max_spec (ilog2 a - 52) emin) as [[_ ->]|[_ ->]].
  - exact Ha.
  - replace (52 + (ilog2 a - 52))%Z with (ilog2 a) by lia.
    now apply ilog2_lower.
Qed.

Lemma round64_normal (q : Q) : pow2 (-1022) <= q -> pow2 (-1022) <= round64 q.
Proof.
  intros Hq.
  assert (Hpos : 0 < q) by (eapply Qlt_le_trans; [apply pow2_pos|eassumption]).
  unfold round64. set (q' := Qred q).
  assert (Hq' : q' == q) by apply Qred_correct.
  assert (E0 : Qeq_bool q' 0 = false) by (apply Qeq_bool_false; lra).
  assert (E1 : Qle_bool 0 q' = true) by (apply Qle_bool_iff; lra).
  rewrite E0, E1. rewrite Qred_correct.
  set (a := Qabs q').
  assert (Ha : a == q) by (unfold a; rewrite Qabs_pos; lra).
  assert (Hea : pow2 (52 + Z.max (ilog2 a - 52) emin) <= a).
  { apply round64_exponent_normal. now rewrite Ha. }
  assert (Hemin : (emin <= Z.max (ilog2 a - 52) emin)%Z) by lia.
  set (e := Z.max (ilog2 a - 52) emin) in *.
  pose proof (pow2_pos e) as He.
  assert (Hsplit : pow2 (52 + e) == pow2 52 * pow2 e).
  { unfold pow2. apply Qpower_plus. discriminate. }
  assert (Hr : pow2 52 <= a / pow2 e).
  { apply Qle_shift_div_l; [assumption|]. now rewrite <- Hsplit. }
  pose proof (round_half_even_floor (a / pow2 e)) as Hm.
  apply Qfloor_resp_le in Hr.
  change (Qfloor (pow2 52)) with (2 ^ 52)%Z in Hr.
  apply Qle_trans with (pow2 (52 + e)).
  - apply pow2_le. unfold emin in Hemin. lia.
  - rewrite Hsplit. apply Qmult_le_compat_r; [|lra].
    rewrite pow2_nonneg by lia. unfold Qle. cbn [Qnum Qden inject_Z]. lia.
Qed.

Lemma half_degrees_normal (k : Z) :
  (1 <= k)%Z -> pow2 (-1022) <= round64 (inject_Z k / 2).
Proof.
  intros Hk. apply round64_normal.
  apply Qle_trans with (1 # 2).
  - apply Qle_bool_iff. vm_compute. reflexivity.
  - apply Qle_shift_div_l; [reflexivity|].
    unfold Qle. cbn [Qnum Qden inject_Z Qmult]. lia.
Qed.

(** * The CDF combinator *)



(** * Where the rational file computes in floating point *)

Lemma gen_for_ext {A : Type} (b1 b2 : Z -> result A) (ks : list Z) (after : gen A) :
  (forall k, In k ks -> b1 k = b2 k) ->
  gen_for b1 ks after = gen_for b2 ks after.
Proof.
  induction ks as [|k ks IH]; intros H; [reflexivity|].
  cbn [gen_for]. rewrite (H k) by now left.
  rewrite IH; [reflexivity|]. intros k' Hk'. apply H. now right.
Qed.

Lemma denominator_shift (s : Q) (k : Z) :
  ch16_ex3.denominator s = 1%positive ->
  ch16_ex3.denominator (s + inject_Z k) = 1%positive.
Proof.
  unfold ch16_ex3.denominator. intros H.
  assert (Es : s == inject_Z (Qnum (Qred s))).
  { rewrite <- (Qred_correct s) at 1. destruct (Qred s) as [n d].
    simpl in H. subst d. reflexivity. }
  rewrite (Qred_integral (s + inject_Z k) (Qnum (Qred s) + k)); [reflexivity|].
  rewrite Es at 1. now rewrite inject_Z_plus.
Qed.

(** At an integral [s] no term of the series calls the floating-point
    power. *)
Lemma frac_term_exact (pow1 pow2 : Q -> Q -> Q) (s z : Q) (k : Z) :
  ch16_ex3.denominator s = 1%positive ->
  ch16_ex3.term pow1 s z k = ch16_ex3.term pow2 s z k.
Proof.
  intros H. unfold ch16_ex3.term, ch16_ex3.Fraction_pow.
  now rewrite (denominator_shift s k H).
Qed.

Lemma frac_gamma_exact (pow1 pow2 : Q -> Q -> Q) (s z : Q) :
  ch16_ex3.denominator s = 1%positive ->
  ch16_ex3.gamma pow1 s z = ch16_ex3.gamma pow2 s z.
Proof.
  intros H. unfold ch16_ex3.gamma, ch16_ex3.terms.
  rewrite (gen_for_ext (ch16_ex3.term pow1 s z) (ch16_ex3.term pow2 s z));
    [reflexivity|].
  intros k _. now apply frac_term_exact.
Qed.




(** * Alternating sums *)

Lemma before_map_range {A : Type} (t : Z -> A) (stop : A -> bool) (n : nat) :
  forall j0 : Z,
  exists n' : nat,
    (n' <= n)%nat /\
    before stop (map t (range j0 (j0 + Z.of_nat n))) =
    map t (range j0 (j0 + Z.of_nat n')).
Proof.
  induction n as [|n IH]; intros j0.
  - exists O. split; [lia|]. now rewrite range_nil by lia.
  - rewrite range_cons by lia. cbn [map before].
    destruct (stop (t j0)).
    + exists O. split; [lia|]. now rewrite range_nil by lia.
    + destruct (IH (j0 + 1)%Z) as (n' & Hn' & E).
      exists (S n'). split; [lia|].
      rewrite (range_cons j0 (j0 + Z.of_nat (S n'))) by lia. cbn [map].
      replace (j0 + Z.of_nat (S n))%Z with (j0 + 1 + Z.of_nat n)%Z by lia.
      replace (j0 + Z.of_nat (S n'))%Z with (j0 + 1 + Z.of_nat n')%Z by lia.
      now rewrite E.
Qed.

Lemma sign_square (j : Z) :
  (0 <= j)%Z -> inject_Z ((-1) ^ j) * inject_Z ((-1) ^ j) == 1.
Proof.
  intros Hj. rewrite <- inject_Z_mult, <- Z.pow_mul_l.
  change (-1 * -1)%Z with 1%Z. now rewrite Z.pow_1_l.
Qed.

Lemma sign_succ (j : Z) :
  (0 <= j)%Z -> inject_Z ((-1) ^ (j + 1)) == - inject_Z ((-1) ^ j).
Proof.
  intros Hj. rewrite Z.pow_add_r by lia. change ((-1) ^ 1)%Z with (-1)%Z.
  rewrite inject_Z_mult. change (inject_Z (-1)) with (-(1))%Q. ring.
Qed.

Section AlternatingSeries.

Variables t a : Z -> Q.
Hypothesis t_sign : forall j, (0 <= j)%Z -> t j == inject_Z ((-1) ^ j) * a j.
Hypothesis a_nonneg : forall j, (0 <= j)%Z -> 0 <= a j.
Hypothesis a_descending : forall j, (0 <= j)%Z -> a (j + 1) <= a j.

(** A partial sum of an alternating series with terms of non-increasing
    magnitude has the sign of its first term and is bounded by it. *)
Lemma alternating_partial_sum (n : nat) :
  forall j0 : Z, (0 <= j0)%Z ->
  0 <= inject_Z ((-1) ^ j0) * Qsum (map t (range j0 (j0 + Z.of_nat n))) /\
  inject_Z ((-1) ^ j0) * Qsum (map t (range j0 (j0 + Z.of_nat n))) <= a j0.
Proof.
  induction n as [|n IH]; intros j0 Hj0.
  - rewrite range_nil by lia. change (Qsum (map t [])) with 0.
    pose proof (a_nonneg j0 Hj0). split; lra.
  - rewrite range_cons by lia. cbn [map]. rewrite Qsum_cons.
    replace (j0 + Z.of_nat (S n))%Z with (j0 + 1 + Z.of_nat n)%Z by lia.
    destruct (IH (j0 + 1)%Z ltac:(lia)) as [IH1 IH2].
    set (S' := Qsum (map t (range (j0 + 1) (j0 + 1 + Z.of_nat n)))) in *.
    rewrite sign_succ in IH1, IH2 by assumption.
    rewrite (t_sign j0 Hj0).
    pose proof (sign_square j0 Hj0) as Hsq.
    pose proof (a_descending j0 Hj0) as Hd.
    pose proof (a_nonneg (j0 + 1)%Z ltac:(lia)) as Hn.
    set (sg := inject_Z ((-1) ^ j0)) in *.
    assert (E : sg * (sg * a j0 + S') == (sg * sg) * a j0 + sg * S') by ring.
    rewrite E, Hsq. split; lra.
Qed.

Lemma alternating_prefix_sum (stop : Q -> bool) (n : nat) :
  0 <= Qsum (before stop (map t (range 0 (Z.of_nat n)))) /\
  Qsum (before stop (map t (range 0 (Z.of_nat n)))) <= a 0.
Proof.
  destruct (before_map_range t stop n 0) as (n' & _ & E).
  rewrite Z.add_0_l in E. rewrite E.
  pose proof (alternating_partial_sum n' 0 ltac:(lia)) as H.
  rewrite Z.add_0_l in H. change (inject_Z ((-1) ^ 0)) with 1 in H.
  rewrite !Qmult_1_l in H. exact H.
Qed.

End AlternatingSeries.

(** * Powers of a number of the unit interval *)

Lemma Qpower_succ (z : Q) (e : Z) : (0 <= e)%Z -> z ^ (e + 1) == z * z ^ e.
Proof.
  intros He. rewrite Qpower_plus' by lia. change (z ^ 1) with z. ring.
Qed.

Lemma Qpower_unit_interval (z : Q) (e : Z) :
  0 <= z -> z <= 1 -> (0 <= e)%Z -> 0 <= z ^ e /\ z ^ e <= 1.
Proof.
  intros H0 H1 He. pattern e. apply natlike_ind; [| |assumption].
  - change (z ^ 0) with 1. split; lra.
  - intros n Hn [IH0 IH1]. unfold Z.succ. rewrite Qpower_succ by assumption.
    split; [now apply Qmult_le_0_compat|].
    apply Qle_trans with (1 * z ^ n); [|lra].
    now apply Qmult_le_compat_r.
Qed.

Lemma Qpower_monotone (a b : Q) (e : Z) :
  0 <= a -> a <= b -> (0 <= e)%Z -> 0 <= a ^ e /\ a ^ e <= b ^ e.
Proof.
  intros H0 H1 He. pattern e. apply natlike_ind; [| |assumption].
  - change (a ^ 0) with 1. change (b ^ 0) with 1. split; lra.
  - intros n Hn [IH0 IH1]. unfold Z.succ. rewrite !Qpower_succ by assumption.
    split; [now apply Qmult_le_0_compat|].
    set (A := a ^ n) in *. set (B := b ^ n) in *. nra.
Qed.

Lemma factorial_succ (j : Z) :
  (0 <= j)%Z ->
  factorial (Z.to_nat (j + 1)) = ((j + 1) * factorial (Z.to_nat j))%Z.
Proof.
  intros Hj. replace (Z.to_nat (j + 1)) with (S (Z.to_nat j)) by lia.
  change (factorial (S (Z.to_nat j)))
    with (Z.of_nat (S (Z.to_nat j)) * factorial (Z.to_nat j))%Z.
  f_equal. lia.
Qed.

(** * The series at an integral [s], for [z] in the unit interval *)

Lemma factorial_inject_pos (n : nat) : 0 < inject_Z (factorial n).
Proof. apply inject_Z_pos. pose proof (factorial_pos n). lia. Qed.

Section IntegralSeries.

Variable libm_pow : Q -> Q -> Q.
Variables s z : Q.
Variable m : Z.
Hypothesis s_integral : s == inject_Z m.
Hypothesis m_pos : (1 <= m)%Z.
Hypothesis z_nonneg : 0 <= z.

Lemma integral_exponent (j : Z) : s + inject_Z j == inject_Z (m + j).
Proof. now rewrite s_integral, inject_Z_plus. Qed.

Lemma frac_power_integral (j : Z) :
  frac_power libm_pow z (s + inject_Z j) = z ^ (m + j).
Proof.
  unfold frac_power, ch16_ex3.denominator, ch16_ex3.numerator.
  now rewrite (Qred_integral _ _ (integral_exponent j)).
Qed.

Lemma frac_term_sign (j : Z) :
  (0 <= j)%Z ->
  frac_term libm_pow s z j == inject_Z ((-1) ^ j) * series_magnitude m z j.
Proof.
  intros Hj. unfold frac_term, series_magnitude.
  rewrite frac_power_integral, integral_exponent.
  pose proof (factorial_inject_pos (Z.to_nat j)).
  pose proof (inject_Z_pos (m + j) ltac:(lia)).
  field. split; lra.
Qed.

Lemma series_magnitude_nonneg (j : Z) :
  (0 <= j)%Z -> 0 <= series_magnitude m z j.
Proof.
  intros Hj. unfold series_magnitude.
  pose proof (factorial_inject_pos (Z.to_nat j)).
  pose proof (inject_Z_pos (m + j) ltac:(lia)).
  apply Qle_shift_div_l; [now apply Qmult_lt_0_compat|].
  rewrite Qmult_0_l. apply Qpower_0_le. assumption.
Qed.

Hypothesis z_le_1 : z <= 1.

Lemma series_magnitude_descending (j : Z) :
  (0 <= j)%Z -> series_magnitude m z (j + 1) <= series_magnitude m z j.
Proof.
  intros Hj. unfold series_magnitude.
  replace (m + (j + 1))%Z with (m + j + 1)%Z by lia.
  rewrite Qpower_succ by lia. rewrite factorial_succ by assumption.
  destruct (Qpower_unit_interval z (m + j) z_nonneg z_le_1 ltac:(lia)) as [HP0 _].
  set (P := z ^ (m + j)) in *.
  rewrite inject_Z_mult, !inject_Z_plus.
  pose proof (factorial_inject_pos (Z.to_nat j)) as HF.
  set (F := inject_Z (factorial (Z.to_nat j))) in *.
  assert (HM : 1 <= inject_Z m) by (unfold Qle; cbn [Qnum Qden inject_Z]; lia).
  assert (HJ : 0 <= inject_Z j) by (unfold Qle; cbn [Qnum Qden inject_Z]; lia).
  set (M := inject_Z m) in *. set (J := inject_Z j) in *.
  change (inject_Z 1) with 1.
  assert (HD : 0 < F * (M + J)) by nra.
  assert (HD' : 0 < (J + 1) * F * (M + J + 1)) by nra.
  apply Qle_shift_div_r; [assumption|].
  assert (E : P / (F * (M + J)) * ((J + 1) * F * (M + J + 1)) ==
              P * (((J + 1) * F * (M + J + 1)) / (F * (M + J)))).
  { field. lra. }
  rewrite E.
  assert (Hr : 1 <= ((J + 1) * F * (M + J + 1)) / (F * (M + J))).
  { apply Qle_shift_div_l; [assumption|]. nra. }
  set (r := ((J + 1) * F * (M + J + 1)) / (F * (M + J))) in *. nra.
Qed.

Lemma series_magnitude_0_le_1 : series_magnitude m z 0 <= 1.
Proof.
  unfold series_magnitude. rewrite Z.add_0_r.
  destruct (Qpower_unit_interval z m z_nonneg z_le_1 ltac:(lia)) as [_ HP1].
  assert (HM : 1 <= inject_Z m) by (unfold Qle; cbn [Qnum Qden inject_Z]; lia).
  change (inject_Z (factorial (Z.to_nat 0))) with 1.
  apply Qle_shift_div_r; [lra|]. lra.
Qed.

(** What [gamma] returns lies between zero and the first term. *)
Lemma frac_gamma_unit_interval :
  returns (ch16_ex3.gamma libm_pow s z)
    (fun r => 0 <= fst r /\ fst r <= series_magnitude m z 0).
Proof.
  assert (Hs : 0 < s).
  { rewrite s_integral. apply inject_Z_pos. lia. }
  destruct (frac_gamma_outcome libm_pow s z Hs) as (v & Hv & ->).
  cbn [returns fst]. rewrite Hv.
  apply (alternating_prefix_sum (frac_term libm_pow s z) (series_magnitude m z)
           frac_term_sign series_magnitude_nonneg series_magnitude_descending
           (small ch16_ex3.ε) 100).
Qed.

End IntegralSeries.

(** * The range of the CDF *)

Lemma half_of_even (m : Z) : inject_Z (2 * m) / 2 == inject_Z m.
Proof. rewrite inject_Z_mult. field. Qed.

(** For an even number of degrees of freedom the rational [cdf] is the
    explicit quotient over [(k/2 - 1)!]. *)
Lemma frac_cdf_even (libm_pow : Q -> Q -> Q) (x : ch16_ex3.number) (m : Z) :
  (1 <= m)%Z ->
  forall g w,
    ch16_ex3.gamma libm_pow (inject_Z (2 * m) / 2)
      (ch16_ex3.Fraction (ch16_ex3.halve x)) = Ok (g, w) ->
    ch16_ex3.cdf libm_pow x (2 * m) =
    Ok (1 - g / inject_Z (factorial (Z.to_nat (m - 1))), w).
Proof.
  intros Hm g w Hg. unfold ch16_ex3.cdf. rewrite Hg. cbn [bind fst snd].
  rewrite (frac_Gamma_Half_integer _ m (half_of_even m)).
  rewrite float_fact_factorial by lia. cbn [bind].
  unfold ch16_ex3.Fraction_div.
  assert (E : Qeq_bool (inject_Z (factorial (Z.to_nat (m - 1)))) 0 = false).
  { apply Qeq_bool_false. pose proof (factorial_inject_pos (Z.to_nat (m - 1))). lra. }
  rewrite E. reflexivity.
Qed.

Lemma factorial_inject_ge_1 (n : nat) : 1 <= inject_Z (factorial n).
Proof.
  pose proof (factorial_pos n). unfold Qle. cbn [Qnum Qden inject_Z]. lia.
Qed.



(** * Monotonicity in the statistic *)

(** Weighted arithmetic-geometric mean: [(p+1) a^p b <= b^(p+1) + p a^(p+1)]. *)
Lemma power_mean (a b : Q) (p : Z) :
  0 <= a -> a <= b -> (0 <= p)%Z ->
  inject_Z (p + 1) * a ^ p * b <= b ^ (p + 1) + inject_Z p * a ^ (p + 1).
Proof.
  intros Ha Hab Hp. pattern p. apply natlike_ind; [| |assumption].
  - change (a ^ 0) with 1. change (b ^ (0 + 1)) with b.
    change (a ^ (0 + 1)) with a. change (inject_Z (0 + 1)) with 1.
    change (inject_Z 0) with 0. lra.
  - intros n Hn IH. unfold Z.succ.
    destruct (Qpower_monotone a b n Ha Hab Hn) as [HA HAB].
    rewrite !Qpower_succ in * by lia. rewrite !inject_Z_plus in *.
    change (inject_Z 1) with 1 in *.
    assert (HN : 0 <= inject_Z n) by (unfold Qle; cbn [Qnum Qden inject_Z]; lia).
    set (N := inject_Z n) in *. set (A := a ^ n) in *. set (B := b ^ n) in *.
    assert (H1 : a * ((N + 1) * A * b) <= a * (b * B + N * (a * A))).
    { set (X := (N + 1) * A * b) in *. set (Y := b * B + N * (a * A)) in *. nra. }
    assert (H2 : 0 <= (b * B - a * A) * (b - a)).
    { apply Qmult_le_0_compat; [|lra]. nra. }
    nra.
Qed.

(** [t^p / p - t^(p+1) / (p+1)] does not decrease on the unit interval. *)
Lemma power_gap (a b : Q) (p : Z) :
  0 <= a -> a <= b -> b <= 1 -> (0 <= p)%Z ->
  inject_Z p * (b ^ (p + 1) - a ^ (p + 1)) <= inject_Z (p + 1) * (b ^ p - a ^ p).
Proof.
  intros Ha Hab Hb Hp.
  pose proof (power_mean a b p Ha Hab Hp) as Hm.
  destruct (Qpower_monotone a b p Ha Hab Hp) as [HA HAB].
  rewrite !Qpower_succ in * by lia. rewrite !inject_Z_plus in *.
  change (inject_Z 1) with 1 in *.
  assert (HN : 0 <= inject_Z p) by (unfold Qle; cbn [Qnum Qden inject_Z]; lia).
  set (N := inject_Z p) in *. set (A := a ^ p) in *. set (B := b ^ p) in *.
  assert (H1 : (N + 1) * (b * (B - A)) <= (N + 1) * (1 * (B - A))).
  { assert (H0 : b * (B - A) <= 1 * (B - A)) by (apply Qmult_le_compat_r; lra).
    set (X := b * (B - A)) in *. set (Y := 1 * (B - A)) in *. nra. }
  nra.
Qed.

Lemma Qsum_map_minus {A : Type} (f g : A -> Q) (l : list A) :
  Qsum (map (fun j => f j - g j) l) == Qsum (map f l) - Qsum (map g l).
Proof.
  induction l as [|j l IH]; [reflexivity|].
  cbn [map]. rewrite !Qsum_cons, IH. ring.
Qed.

Section TwoStatistics.

Variable libm_pow : Q -> Q -> Q.
Variables s z1 z2 : Q.
Variable m : Z.
Hypothesis s_integral : s == inject_Z m.
Hypothesis m_pos : (1 <= m)%Z.
Hypothesis z1_nonneg : 0 <= z1.
Hypothesis z1_le_z2 : z1 <= z2.
Hypothesis z2_le_1 : z2 <= 1.

Local Notation gap := (series_gap m z1 z2).

Lemma gap_eq (j : Z) :
  (0 <= j)%Z ->
  gap j == (z2 ^ (m + j) - z1 ^ (m + j))
           / (inject_Z (factorial (Z.to_nat j)) * inject_Z (m + j)).
Proof.
  intros Hj. unfold series_gap, series_magnitude.
  pose proof (factorial_inject_pos (Z.to_nat j)).
  pose proof (inject_Z_pos (m + j) ltac:(lia)).
  field. split; lra.
Qed.

Lemma gap_sign (j : Z) :
  (0 <= j)%Z ->
  frac_term libm_pow s z2 j - frac_term libm_pow s z1 j ==
  inject_Z ((-1) ^ j) * gap j.
Proof.
  intros Hj. unfold series_gap.
  rewrite (frac_term_sign libm_pow s z2 m s_integral m_pos j Hj).
  rewrite (frac_term_sign libm_pow s z1 m s_integral m_pos j Hj).
  ring.
Qed.

Lemma gap_nonneg (j : Z) : (0 <= j)%Z -> 0 <= gap j.
Proof.
  intros Hj. rewrite gap_eq by assumption.
  pose proof (factorial_inject_pos (Z.to_nat j)).
  pose proof (inject_Z_pos (m + j) ltac:(lia)).
  destruct (Qpower_monotone z1 z2 (m + j) z1_nonneg z1_le_z2 ltac:(lia)).
  apply Qle_shift_div_l; [now apply Qmult_lt_0_compat|]. lra.
Qed.

Lemma gap_descending (j : Z) : (0 <= j)%Z -> gap (j + 1) <= gap j.
Proof.
  intros Hj. rewrite !gap_eq by lia.
  replace (m + (j + 1))%Z with (m + j + 1)%Z by lia.
  rewrite factorial_succ by assumption.
  pose proof (power_gap z1 z2 (m + j) z1_nonneg z1_le_z2 z2_le_1 ltac:(lia)) as HK.
  destruct (Qpower_monotone z1 z2 (m + j) z1_nonneg z1_le_z2 ltac:(lia)) as [_ HD].
  destruct (Qpower_monotone z1 z2 (m + j + 1) z1_nonneg z1_le_z2 ltac:(lia)) as [_ HD'].
  rewrite inject_Z_mult, !inject_Z_plus in *. change (inject_Z 1) with 1 in *.
  pose proof (factorial_inject_pos (Z.to_nat j)) as HF.
  assert (HM : 1 <= inject_Z m) by (unfold Qle; cbn [Qnum Qden inject_Z]; lia).
  assert (HJ : 0 <= inject_Z j) by (unfold Qle; cbn [Qnum Qden inject_Z]; lia).
  set (F := inject_Z (factorial (Z.to_nat j))) in *.
  set (M := inject_Z m) in *. set (J := inject_Z j) in *.
  set (D := z2 ^ (m + j) - z1 ^ (m + j)) in *.
  set (D' := z2 ^ (m + j + 1) - z1 ^ (m + j + 1)) in *.
  assert (HD0 : 0 <= D) by (unfold D; lra).
  assert (HD0' : 0 <= D') by (unfold D'; lra).
  assert (Hden : 0 < F * (M + J)) by nra.
  assert (Hden' : 0 < (J + 1) * F * (M + J + 1)) by nra.
  apply Qle_shift_div_r; [assumption|].
  assert (E : D / (F * (M + J)) * ((J + 1) * F * (M + J + 1))
              == (J + 1) * ((M + J + 1) * D) / (M + J)).
  { field. lra. }
  rewrite E. apply Qle_shift_div_l; [lra|].
  assert (H1 : (M + J + 1) * D <= (J + 1) * ((M + J + 1) * D)).
  { set (X := (M + J + 1) * D) in *. assert (0 <= X) by (unfold X; nra). nra. }
  lra.
Qed.

(** With the same number of terms at both points, the partial sum at the
    larger point is the larger one. *)
Lemma partial_sums_monotone (n : nat) :
  Qsum (map (frac_term libm_pow s z1) (range 0 (Z.of_nat n))) <=
  Qsum (map (frac_term libm_pow s z2) (range 0 (Z.of_nat n))).
Proof.
  pose proof (alternating_partial_sum
                (fun j => frac_term libm_pow s z2 j - frac_term libm_pow s z1 j)
                gap gap_sign gap_nonneg gap_descending n 0 ltac:(lia)) as [H _].
  rewrite Z.add_0_l in H. change (inject_Z ((-1) ^ 0)) with 1 in H.
  rewrite Qmult_1_l in H.
  rewrite (Qsum_map_minus (frac_term libm_pow s z2) (frac_term libm_pow s z1)) in H.
  lra.
Qed.

End TwoStatistics.

Lemma terms_summed_spec (libm_pow : Q -> Q -> Q) (s z : Q) :
  before (small ch16_ex3.ε) (map (frac_term libm_pow s z) (range 0 100)) =
  map (frac_term libm_pow s z) (range 0 (Z.of_nat (terms_summed libm_pow s z))).
Proof.
  unfold terms_summed.
  destruct (before_map_range (frac_term libm_pow s z) (small ch16_ex3.ε) 100 0)
    as (n & _ & E).
  change (0 + Z.of_nat 100)%Z with 100%Z in E. rewrite Z.add_0_l in E.
  rewrite E at 1. do 2 f_equal.
  rewrite E, length_map, range_length. lia.
Qed.



(** * The hybrid selector of Bonus/chi_sq.py *)

Lemma trunc_integral (k : Q) (n : Z) : k == inject_Z n -> trunc k = n.
Proof.
  intros H. unfold trunc. unfold Qeq in H. cbn [Qnum Qden inject_Z] in H.
  rewrite Z.mul_1_r in H. rewrite H. apply Z.quot_mul. discriminate.
Qed.

Lemma trunc_half_integral (k : Q) (n : Z) :
  k == inject_Z n + (1 # 2) -> (0 <= n)%Z -> trunc k = n.
Proof.
  intros H Hn. unfold trunc. unfold Qeq, Qplus in H.
  cbn [Qnum Qden inject_Z] in H.
  assert (HD : (0 < Z.pos (Qden k))%Z) by reflexivity.
  set (N := Qnum k) in *. set (D := Z.pos (Qden k)) in *.
  assert (HN : (0 <= N)%Z) by nia.
  rewrite Z.quot_div_nonneg by assumption.
  symmetry. apply (Z.div_unique N D n (N - D * n)); nia.
Qed.

Lemma float_Gamma_Half_integer (libm_pow : Q -> Q -> Q) (k : Q) (n : Z) :
  k == inject_Z n ->
  chi_sq.Gamma_Half libm_pow k = chi_sq.Gamma2 libm_pow k.
Proof.
  intros H. unfold chi_sq.Gamma_Half. rewrite (trunc_integral k n H).
  unfold chi_sq.fsub at 2.
  rewrite (round64_compat (k - inject_Z n) 0) by (rewrite H; ring).
  assert (E : Qlt_bool (Qabs (chi_sq.fsub (round64 0) (1 # 2))) chi_sq.ε' = false)
    by (vm_compute; reflexivity).
  rewrite E. reflexivity.
Qed.

Lemma float_Gamma_Half_half_integer (libm_pow : Q -> Q -> Q) (k : Q) (n : Z) :
  k == inject_Z n + (1 # 2) -> (0 <= n < 2 ^ 52)%Z ->
  chi_sq.Gamma_Half libm_pow k =
  Ok (chi_sq.fmul (round64 (Gamma_closed_form 1 n)) (round_sqrt chi_sq.math_pi)).
Proof.
  intros H Hn. unfold chi_sq.Gamma_Half.
  rewrite (trunc_half_integral k n H) by lia.
  unfold chi_sq.fsub at 2.
  rewrite (round64_compat (k - inject_Z n) (1 # 2)) by (rewrite H; ring).
  assert (E : Qlt_bool (Qabs (chi_sq.fsub (round64 (1 # 2)) (1 # 2))) chi_sq.ε' = true)
    by (vm_compute; reflexivity).
  rewrite E. unfold chi_sq.fsub.
  rewrite (round64_compat (k - (1 # 2)) (inject_Z n)) by (rewrite H; ring).
  rewrite round64_int by lia. rewrite trunc_inject_Z.
  rewrite !float_fact_factorial by lia. cbn [bind].
  destruct (Z.leb_spec 0 n) as [_|]; [|lia].
  unfold chi_sq.int_truediv.
  pose proof (factorial_pos (Z.to_nat n)) as HF.
  assert (H4 : (0 < 4 ^ n)%Z) by (apply Z.pow_pos_nonneg; lia).
  destruct (Z.eqb_spec (4 ^ n * factorial (Z.to_nat n)) 0) as [E0|_]; [nia|].
  cbn [bind]. unfold chi_sq.math_sqrt.
  assert (Epi : Qlt_bool chi_sq.math_pi 0 = false) by (vm_compute; reflexivity).
  rewrite Epi. cbn [bind]. do 2 f_equal.
  apply round64_compat. unfold Gamma_closed_form.
  rewrite inject_Z_mult, Zpower_Qpower by lia.
  change (inject_Z 4) with 4.
  pose proof (factorial_inject_pos (Z.to_nat n)).
  assert (0 < 4 ^ n) by (apply Qpower_0_lt; reflexivity).
  field. split; lra.
Qed.




(** C9, as amended. For every integer [n >= 1], the rational
    [Gamma_Half(n)] is [fact(n - 1)] exactly, and the floating-point
    [Gamma_Half(n)] is the Nemes value [Gamma2(n)]. With a correctly
    rounded power that value is within [10^-6], relatively, of
    [fact(n - 1)] for [n] from 4 to 20, and within [4 * 10^-4] for
    [n = 1, 2, 3]. *)
Theorem Gamma_Half_at_integers (libm_pow : Q -> Q -> Q) (n : Z) :
  (1 <= n)%Z ->
  ch16_ex3.Gamma_Half (inject_Z n) = Ok (inject_Z (factorial (Z.to_nat (n - 1)))) /\
  chi_sq.Gamma_Half libm_pow (inject_Z n) = chi_sq.Gamma2 libm_pow (inject_Z n) /\
  forallb (fun i => test_result (chi_sq.Gamma_Half pow_cr (inject_Z i))
                      (fun G => Qle_bool
                                  (Qabs (G - inject_Z (factorial (Z.to_nat (i - 1)))))
                                  ((1 # 1000000) * inject_Z (factorial (Z.to_nat (i - 1))))))
    (range 4 21) = true /\
  forallb (fun i => test_result (chi_sq.Gamma_Half pow_cr (inject_Z i))
                      (fun G => Qle_bool
                                  (Qabs (G - inject_Z (factorial (Z.to_nat (i - 1)))))
                                  ((4 # 10000) * inject_Z (factorial (Z.to_nat (i - 1))))))
    (range 1 4) = true.
Proof.
  intros Hn. split.
  - rewrite (frac_Gamma_Half_integer _ n (Qeq_refl _)).
    rewrite float_fact_factorial by lia. reflexivity.
  - split; [apply (float_Gamma_Half_integer libm_pow _ n); reflexivity|].
    split; vm_compute; reflexivity.
Qed.

Lemma Gamma_Half_at_integers_witness :
  ch16_ex3.Gamma_Half (inject_Z 5) = Ok (inject_Z (factorial (Z.to_nat (5 - 1)))) /\
  chi_sq.Gamma_Half pow_cr (inject_Z 5) = chi_sq.Gamma2 pow_cr (inject_Z 5).
Proof.
  destruct (Gamma_Half_at_integers pow_cr 5) as (A & B & _); [lia|].
  split; [exact A|exact B].
Defined.

(** C9, as stated, fails in the floating-point file at [n = 1]:
    [Gamma_Half(1.0)] is off [fact(0) = 1] by more than [10^-6]. *)
Lemma Gamma_Half_float_at_one_is_off :
  returns (chi_sq.Gamma_Half pow_cr 1)
    (fun G => (1 # 1000000) * inject_Z (factorial 0) < Qabs (G - inject_Z (factorial 0))).
Proof. vm_compute. reflexivity. Qed.


(** * Concrete runs, term by term *)

Lemma range_split_nat (n : nat) :
  forall lo hi : Z,
    (lo + Z.of_nat n <= hi)%Z ->
    range lo hi = range lo (lo + Z.of_nat n) ++ range (lo + Z.of_nat n) hi.
Proof.
  induction n as [|n IH]; intros lo hi H.
  - rewrite Z.add_0_r. now rewrite (range_nil lo lo) by lia.
  - rewrite (range_cons lo hi) by lia.
    rewrite (range_cons lo (lo + Z.of_nat (S n))) by lia.
    rewrite (IH (lo + 1)%Z hi) by lia.
    replace (lo + 1 + Z.of_nat n)%Z with (lo + Z.of_nat (S n))%Z by lia.
    reflexivity.
Qed.

Lemma range_split (lo mid hi : Z) :
  (lo <= mid)%Z -> (mid <= hi)%Z -> range lo hi = range lo mid ++ range mid hi.
Proof.
  intros H1 H2.
  pose proof (range_split_nat (Z.to_nat (mid - lo)) lo hi) as H.
  replace (lo + Z.of_nat (Z.to_nat (mid - lo)))%Z with mid in H by lia.
  apply H. lia.
Qed.

Lemma before_app {A : Type} (stop : A -> bool) (l1 l2 : list A) :
  existsb stop l1 = false -> before stop (l1 ++ l2) = l1 ++ before stop l2.
Proof.
  induction l1 as [|v l1 IH]; [reflexivity|].
  cbn [existsb app before]. destruct (stop v); [discriminate|].
  cbn [orb]. intros H. now rewrite IH.
Qed.

Lemma Qsum_app (l1 l2 : list Q) : Qsum (l1 ++ l2) == Qsum l1 + Qsum l2.
Proof.
  induction l1 as [|t l1 IH].
  - cbn [app]. change (Qsum []) with 0. ring.
  - cbn [app]. rewrite !Qsum_cons, IH. ring.
Qed.

(** At [s = 1], [z = 32] none of the first 100 terms is below [ε]; term
    100 is not either, term 101 is. *)
Lemma series_1_32_first_100 :
  existsb (small ch16_ex3.ε) (map (frac_term pow_cr 1 32) (range 0 100)) = false.
Proof. vm_compute. reflexivity. Qed.

Lemma series_1_32_next :
  small ch16_ex3.ε (frac_term pow_cr 1 32 100) = false /\
  small ch16_ex3.ε (frac_term pow_cr 1 32 101) = true /\
  Qeq_bool (frac_term pow_cr 1 32 100) 0 = false.
Proof. repeat split; vm_compute; reflexivity. Qed.

Lemma gamma_1_32_outcome :
  exists v,
    v == Qsum (map (frac_term pow_cr 1 32) (range 0 100)) /\
    ch16_ex3.gamma pow_cr 1 32 = Ok (v, ["More than 100 terms"%string]).
Proof.
  destruct (frac_gamma_outcome pow_cr 1 32 eq_refl) as (v & Hv & E).
  cbv zeta in Hv, E. rewrite series_1_32_first_100 in E.
  rewrite (before_all _ _ series_1_32_first_100) in Hv.
  exists v. split; assumption.
Qed.

(** If the loop has ended after the terms [l], none of them below [eps],
    while the next term [t] is not below [eps] either and differs from
    zero, the value returned is not the sum of the terms before the first
    one below [eps]. *)
Lemma prefix_sum_cut (eps : Q) (l : list Q) (t u v : Q) :
  existsb (small eps) l = false ->
  small eps t = false -> small eps u = true ->
  Qeq_bool t 0 = false -> v == Qsum l ->
  existsb (small eps) (l ++ [t; u]) = true /\
  ~ v == Qsum (before (small eps) (l ++ [t; u])).
Proof.
  intros Hl Ht Hu Hnz Hv. split.
  - rewrite existsb_app. cbn [existsb]. rewrite Hu.
    rewrite !orb_true_r. reflexivity.
  - rewrite (before_app (small eps) l [t; u] Hl).
    cbn [before]. rewrite Ht, Hu.
    rewrite Qsum_app, Qsum_cons. change (Qsum []) with 0.
    apply Qeq_bool_false in Hnz. rewrite Hv. intros H. apply Hnz.
    set (S := Qsum l) in *. lra.
Qed.



(** * When the terms grow *)

Lemma sign_even (i : Z) : (0 <= i)%Z -> inject_Z ((-1) ^ (2 * i)) == 1.
Proof.
  intros Hi. rewrite Z.pow_mul_r by lia. change ((-1) ^ 2)%Z with 1%Z.
  now rewrite Z.pow_1_l.
Qed.

Section GrowingSeries.

Variables t a : Z -> Q.
Variable N : Z.
Hypothesis t_sign : forall j, (0 <= j)%Z -> t j == inject_Z ((-1) ^ j) * a j.
Hypothesis a_ascending : forall j, (0 <= j)%Z -> (j + 1 < N)%Z -> a j <= a (j + 1).

(** While the magnitudes grow, an even number of terms from an even
    index on adds up to no more than the first two. *)
Lemma growing_pairs (n : nat) :
  forall i : Z, (0 <= i)%Z -> (2 * i + 2 * Z.of_nat (S n) <= N)%Z ->
  Qsum (map t (range (2 * i) (2 * i + 2 * Z.of_nat (S n)))) <=
  a (2 * i) - a (2 * i + 1).
Proof.
  induction n as [|n IH]; intros i Hi HN.
  - rewrite (range_cons (2 * i)) by lia. rewrite (range_cons (2 * i + 1)) by lia.
    rewrite range_nil by lia. cbn [map]. rewrite !Qsum_cons.
    change (Qsum []) with 0.
    rewrite (t_sign (2 * i)), (t_sign (2 * i + 1)) by lia.
    rewrite sign_succ, sign_even by lia. lra.
  - rewrite (range_cons (2 * i)) by lia. rewrite (range_cons (2 * i + 1)) by lia.
    cbn [map]. rewrite !Qsum_cons.
    replace (2 * i + 1 + 1)%Z with (2 * (i + 1))%Z by lia.
    replace (2 * i + 2 * Z.of_nat (S (S n)))%Z
      with (2 * (i + 1) + 2 * Z.of_nat (S n))%Z by lia.
    pose proof (IH (i + 1)%Z ltac:(lia) ltac:(lia)) as H.
    pose proof (a_ascending (2 * (i + 1)) ltac:(lia) ltac:(lia)) as Hasc.
    rewrite (t_sign (2 * i)), (t_sign (2 * i + 1)) by lia.
    rewrite sign_succ, sign_even by lia.
    set (S' := Qsum (map t (range (2 * (i + 1)) (2 * (i + 1) + 2 * Z.of_nat (S n))))) in *.
    lra.
Qed.

End GrowingSeries.

Lemma series_magnitude_ascending (m : Z) (z : Q) (j : Z) :
  (1 <= m)%Z -> (0 <= j)%Z -> inject_Z (2 * (j + 1)) <= z ->
  series_magnitude m z j <= series_magnitude m z (j + 1).
Proof.
  intros Hm Hj Hz. unfold series_magnitude.
  replace (m + (j + 1))%Z with (m + j + 1)%Z by lia.
  rewrite Qpower_succ by lia. rewrite factorial_succ by assumption.
  rewrite inject_Z_mult, !inject_Z_plus in *. change (inject_Z 1) with 1 in *.
  change (inject_Z 2) with 2 in *.
  assert (HM : 1 <= inject_Z m) by (unfold Qle; cbn [Qnum Qden inject_Z]; lia).
  assert (HJ : 0 <= inject_Z j) by (unfold Qle; cbn [Qnum Qden inject_Z]; lia).
  pose proof (factorial_inject_pos (Z.to_nat j)) as HF.
  assert (Hz0 : 0 <= z) by lra.
  pose proof (Qpower_0_le z (m + j) Hz0) as HP.
  set (P := z ^ (m + j)) in *.
  set (F := inject_Z (factorial (Z.to_nat j))) in *.
  set (M := inject_Z m) in *. set (J := inject_Z j) in *.
  assert (HD : 0 < F * (M + J)) by nra.
  assert (HD' : 0 < (J + 1) * F * (M + J + 1)) by nra.
  apply Qle_shift_div_r; [assumption|].
  assert (E : z * P / ((J + 1) * F * (M + J + 1)) * (F * (M + J))
              == P * (z * (M + J)) / ((J + 1) * (M + J + 1))).
  { field. lra. }
  rewrite E. apply Qle_shift_div_l; [nra|].
  assert (H1 : (J + 1) * (M + J + 1) <= z * (M + J)) by nra.
  set (X := (J + 1) * (M + J + 1)) in *. set (Y := z * (M + J)) in *. nra.
Qed.

(** While all 100 terms grow in magnitude and none is below [ε], the sum
    that [gamma] returns is negative and [cdf] is above [1]. *)
Lemma frac_cdf_above_one (libm_pow : Q -> Q -> Q) (x : Q) (k : Z) :
  Z.even k = true -> (2 <= k)%Z -> inject_Z 400 <= x ->
  existsb (small ch16_ex3.ε)
    (map (frac_term libm_pow (inject_Z k / 2) (x / 2)) (range 0 100)) = false ->
  returns (ch16_ex3.cdf libm_pow (ch16_ex3.PyFraction x) k) (fun r => 1 < fst r).
Proof.
  intros Hev Hk Hx Hnone. apply Z.even_spec in Hev. destruct Hev as [m ->].
  assert (Hm : (1 <= m)%Z) by lia.
  assert (Hs : 0 < inject_Z (2 * m) / 2).
  { rewrite half_of_even. apply inject_Z_pos. lia. }
  assert (Hz : inject_Z 200 <= x / 2).
  { apply Qle_shift_div_l; [reflexivity|].
    change (inject_Z 200 * 2) with (inject_Z 400). assumption. }
  destruct (frac_gamma_outcome libm_pow _ (x / 2) Hs) as (g & Hg & E).
  rewrite (frac_cdf_even libm_pow (ch16_ex3.PyFraction x) m Hm _ _ E).
  cbn [returns fst].
  rewrite (before_all _ _ Hnone) in Hg.
  pose proof (growing_pairs (frac_term libm_pow (inject_Z (2 * m) / 2) (x / 2))
                (series_magnitude m (x / 2)) 100
                (frac_term_sign libm_pow _ (x / 2) m (half_of_even m) Hm)) as Hp.
  assert (Hasc : forall j, (0 <= j)%Z -> (j + 1 < 100)%Z ->
                 series_magnitude m (x / 2) j <= series_magnitude m (x / 2) (j + 1)).
  { intros j Hj0 Hj1. apply series_magnitude_ascending; [assumption|assumption|].
    apply Qle_trans with (inject_Z 200); [|assumption].
    unfold Qle. cbn [Qnum Qden inject_Z]. lia. }
  specialize (Hp Hasc 49%nat 0%Z ltac:(lia) ltac:(lia)).
  change (2 * 0 + 2 * Z.of_nat 50)%Z with 100%Z in Hp.
  change (2 * 0)%Z with 0%Z in Hp. change (0 + 1)%Z with 1%Z in Hp.
  rewrite <- Hg in Hp.
  assert (H01 : series_magnitude m (x / 2) 0 < series_magnitude m (x / 2) 1).
  { unfold series_magnitude.
    replace (m + 1)%Z with (m + 0 + 1)%Z by lia.
    rewrite Qpower_succ by lia.
    change (inject_Z (factorial (Z.to_nat 0))) with 1.
    change (inject_Z (factorial (Z.to_nat 1))) with 1.
    rewrite !inject_Z_plus. change (inject_Z 0) with 0. change (inject_Z 1) with 1.
    change (inject_Z 200) with 200 in Hz.
    assert (HM : 1 <= inject_Z m) by (unfold Qle; cbn [Qnum Qden inject_Z]; lia).
    assert (HP : 0 < (x / 2) ^ (m + 0)) by (apply Qpower_0_lt; lra).
    set (P := (x / 2) ^ (m + 0)) in *. set (M := inject_Z m) in *.
    set (z := x / 2) in *.
    apply Qlt_shift_div_r; [lra|].
    assert (E1 : z * P / (1 * (M + 0 + 1)) * (1 * (M + 0))
                 == P * (z * M) / (M + 1)) by (field; lra).
    rewrite E1. apply Qlt_shift_div_l; [lra|].
    assert (H2 : M + 1 < z * M) by nra.
    set (X := z * M) in *. nra. }
  pose proof (factorial_inject_ge_1 (Z.to_nat (m - 1))) as HG.
  set (G := inject_Z (factorial (Z.to_nat (m - 1)))) in *.
  assert (Hq : g / G < 0).
  { apply Qlt_shift_div_r; [lra|]. lra. }
  lra.
Qed.

Lemma series_1_256_first_100 :
  existsb (small ch16_ex3.ε)
    (map (frac_term pow_cr (inject_Z 2 / 2) (512 / 2)) (range 0 100)) = false.
Proof. vm_compute. reflexivity. Qed.



(** * The two files side by side *)

Lemma apart_between_agree (libm_pow : Q -> Q -> Q) (lo hi : Q) (xk : Q * Z) :
  apart_between libm_pow lo hi xk = true ->
  agree_within libm_pow hi xk = true /\ agree_within libm_pow lo xk = false.
Proof.
  unfold apart_between, agree_within.
  destruct (ch16_ex3.cdf libm_pow _ _) as [r|e]; [|discriminate].
  destruct (chi_sq.cdf libm_pow _ _) as [f|e]; [|discriminate].
  cbn [test_result]. intros H. apply andb_true_iff in H. destruct H as [H1 H2].
  split; [exact H2|]. apply negb_true_iff. exact H1.
Qed.

Lemma apart_between_returns (libm_pow : Q -> Q -> Q) (lo hi : Q) (xk : Q * Z) :
  apart_between libm_pow lo hi xk = true ->
  returns (ch16_ex3.cdf libm_pow (ch16_ex3.PyFloat (round64 (fst xk))) (snd xk))
    (fun r =>
       returns (chi_sq.cdf libm_pow (round64 (fst xk)) (snd xk))
         (fun f => lo < Qabs (fst r - fst f))).
Proof.
  unfold apart_between.
  destruct (ch16_ex3.cdf libm_pow _ _) as [r|e]; [|discriminate].
  destruct (chi_sq.cdf libm_pow _ _) as [f|e]; [|discriminate].
  cbn [test_result returns]. intros H. apply andb_true_iff in H. destruct H as [H1 _].
  apply negb_true_iff in H1. apply Qnot_le_lt. intros Hle.
  apply Qle_bool_iff in Hle. congruence.
Qed.

(** At [x = 9.488], [k = 4], the two files are more than [10^-6] and no
    more than [2 * 10^-5] apart. *)
Lemma doctest_9_488_4 :
  apart_between pow_cr (1 # 1000000) (2 # 100000) (9488 # 1000, 4%Z) = true.
Proof. vm_compute. reflexivity. Qed.



(** * Further properties of the two files *)

(** ** [fact] *)

(** In both files [fact] computes the factorial of every non-negative
    [int]. *)
Theorem fact_computes_factorial (n : Z) :
  (0 <= n)%Z ->
  chi_sq.fact n = Ok (factorial (Z.to_nat n)) /\
  ch16_ex3.fact (inject_Z n) = Ok (factorial (Z.to_nat n)).
Proof.
  intros Hn. split.
  - apply float_fact_factorial. assumption.
  - rewrite frac_fact_int. apply float_fact_factorial. assumption.
Qed.

Lemma fact_computes_factorial_witness :
  chi_sq.fact 5 = Ok 120%Z /\ ch16_ex3.fact (inject_Z 5) = Ok 120%Z.
Proof. apply (fact_computes_factorial 5). lia. Defined.

Lemma trunc_bounds (q : Q) :
  0 <= q -> inject_Z (trunc q) <= q /\ q < inject_Z (trunc q + 1).
Proof.
  intros Hq. destruct q as [n d]. unfold trunc, Qle, Qlt in *.
  cbn [Qnum Qden inject_Z] in *. rewrite Z.mul_1_r in *.
  assert (Hn : (0 <= n)%Z) by lia.
  rewrite Z.quot_div_nonneg by lia.
  pose proof (Z.mul_div_le n (Z.pos d) ltac:(lia)).
  pose proof (Z.mul_succ_div_gt n (Z.pos d) ltac:(lia)).
  lia.
Qed.

(** In the rational file [fact] takes a [Fraction] as well: through
    [int(k)] it computes the factorial of the integral part of every
    non-negative argument. *)
Theorem frac_fact_truncates (q : Q) :
  0 <= q -> ch16_ex3.fact q = Ok (factorial (Z.to_nat (trunc q))).
Proof.
  intros Hq. destruct (trunc_bounds q Hq) as [Hlo Hhi].
  assert (Ht : (0 <= trunc q)%Z).
  { unfold trunc. apply Z.quot_pos; [|lia].
    unfold Qle in Hq. cbn [Qnum Qden] in Hq. lia. }
  unfold ch16_ex3.fact. destruct (Qlt_bool q 2) eqn:E.
  - apply Qlt_bool_iff in E.
    assert (H2 : inject_Z (trunc q) < inject_Z 2).
    { apply Qle_lt_trans with q; assumption. }
    apply inject_Z_lt in H2.
    assert (Hc : trunc q = 0%Z \/ trunc q = 1%Z) by lia.
    destruct Hc as [-> | ->]; reflexivity.
  - apply Qlt_bool_false in E.
    assert (H2 : inject_Z 2 < inject_Z (trunc q + 1)).
    { apply Qle_lt_trans with q; assumption. }
    apply inject_Z_lt in H2.
    rewrite <- (Z2Nat.id (trunc q)) at 1 by assumption.
    apply reduce_mul_range. lia.
Qed.

Lemma frac_fact_truncates_witness :
  ch16_ex3.fact (7 # 2) = Ok 6%Z.
Proof. apply (frac_fact_truncates (7 # 2)). discriminate. Defined.

(** ** [cdf] at no degrees of freedom *)

(** With [k = 0] the first term of the series is divided by [s + 0 = 0]:
    in both files [cdf] raises [ZeroDivisionError], whatever the
    statistic. *)
Theorem cdf_zero_degrees_raises (libm_pow : Q -> Q -> Q) :
  (forall x : ch16_ex3.number, ch16_ex3.cdf libm_pow x 0 = Raise ZeroDivisionError) /\
  (forall x : Q, chi_sq.cdf libm_pow x 0 = Raise ZeroDivisionError).
Proof.
  split; intros x.
  - unfold ch16_ex3.cdf, ch16_ex3.gamma, ch16_ex3.terms.
    rewrite (range_cons 0 100) by lia. cbn [gen_for].
    reflexivity.
  - unfold chi_sq.cdf, chi_sq.gamma, chi_sq.terms.
    rewrite (range_cons 0 1000) by lia.
    reflexivity.
Qed.

(** ** [cdf] at the statistic zero *)

Lemma frac_term_at_zero (libm_pow : Q -> Q -> Q) (s z : Q) :
  pow2 (-1022) <= s -> z == 0 ->
  ch16_ex3.denominator s = 1%positive \/ (forall e, 0 < e -> libm_pow 0 e == 0) ->
  frac_term libm_pow s z 0 == 0.
Proof.
  intros Hn Hz Hpow. unfold frac_term.
  assert (Hs : 0 < s) by (eapply Qlt_le_trans; [apply pow2_pos|eassumption]).
  assert (Es : s + inject_Z 0 == s) by (change (inject_Z 0) with 0; ring).
  assert (Hp : frac_power libm_pow z (s + inject_Z 0) == 0).
  { unfold frac_power.
    unfold ch16_ex3.denominator, ch16_ex3.numerator in *.
    rewrite (Qred_complete _ _ Es).
    assert (Hfl : (forall e, 0 < e -> libm_pow 0 e == 0) ->
                  libm_pow (round64 z) (round64 (s + inject_Z 0)) == 0).
    { intros H. rewrite (round64_compat z 0 Hz). change (round64 0) with 0.
      apply H. rewrite (round64_compat _ _ Es). apply round64_pos. assumption. }
    destruct (Qden (Qred s)) as [p|p|] eqn:Ed.
    - destruct Hpow as [Hd|Hpow]; [discriminate|]. auto.
    - destruct Hpow as [Hd|Hpow]; [discriminate|]. auto.
    - rewrite Hz.
      pose proof (Qred_num_pos s Hs) as Hnum.
      destruct (Qnum (Qred s)) as [|n|n]; try lia.
      cbn [Qpower]. apply Qpower_positive_0. }
  rewrite Hp.
  assert (Hs0 : ~ s + inject_Z 0 == 0) by (rewrite Es; lra).
  field. split; [lra|discriminate].
Qed.

(** What [cdf] of the rational file returns, in terms of the series. *)
Lemma frac_cdf_outcome (libm_pow : Q -> Q -> Q) (x : ch16_ex3.number) (k : Z) :
  (1 <= k)%Z ->
  let ts := map (frac_term libm_pow (inject_Z k / 2)
                   (ch16_ex3.Fraction (ch16_ex3.halve x))) (range 0 100) in
  exists g G,
    g == Qsum (before (small ch16_ex3.ε) ts) /\ 0 < G /\
    ch16_ex3.Gamma_Half (inject_Z k / 2) = Ok G /\
    ch16_ex3.cdf libm_pow x k =
    Ok (1 - g / G, if existsb (small ch16_ex3.ε) ts then []
                   else ["More than 100 terms"%string]).
Proof.
  intros Hk ts.
  assert (Hs : 0 < inject_Z k / 2).
  { apply Qlt_shift_div_l; [reflexivity|]. rewrite Qmult_0_l.
    apply inject_Z_pos. lia. }
  destruct (frac_gamma_outcome libm_pow (inject_Z k / 2)
              (ch16_ex3.Fraction (ch16_ex3.halve x)) Hs) as (g & Hv & Hg).
  destruct (returns_Ok _ _ (frac_Gamma_Half_of_degrees k Hk)) as (G & HG & HGpos).
  exists g, G. split; [exact Hv|]. split; [exact HGpos|]. split; [exact HG|].
  unfold ch16_ex3.cdf. rewrite Hg, HG. cbn [bind fst snd].
  unfold ch16_ex3.Fraction_div.
  assert (E : Qeq_bool G 0 = false) by (apply Qeq_bool_false; lra).
  rewrite E. reflexivity.
Qed.

(** At [x = 0] the first term of the series is zero, the sum is empty and
    the rational [cdf] returns exactly [1] without a warning: for every
    even [k >= 2], and for every odd [k >= 1] if [pow(0, e)] is [0] at
    [e > 0]. *)
Theorem frac_cdf_at_zero (libm_pow : Q -> Q -> Q) (x : ch16_ex3.number) (k : Z) :
  (1 <= k)%Z -> ch16_ex3.Fraction x == 0 ->
  Z.even k = true \/ (forall e, 0 < e -> libm_pow 0 e == 0) ->
  returns (ch16_ex3.cdf libm_pow x k) (fun r => fst r == 1 /\ snd r = []).
Proof.
  intros Hk Hx Hpow.
  assert (Hs : pow2 (-1022) <= inject_Z k / 2).
  { apply Qle_trans with (1 # 2).
    - apply Qle_bool_iff. vm_compute. reflexivity.
    - apply Qle_shift_div_l; [reflexivity|].
      unfold Qle. cbn [Qnum Qden inject_Z Qmult]. lia. }
  assert (Hs0 : 0 < inject_Z k / 2)
    by (eapply Qlt_le_trans; [apply pow2_pos|eassumption]).
  assert (Hz : ch16_ex3.Fraction (ch16_ex3.halve x) == 0).
  { destruct x as [q|f]; cbn [ch16_ex3.Fraction ch16_ex3.halve] in *.
    - rewrite Hx. reflexivity.
    - rewrite (round64_compat (f / 2) 0) by (rewrite Hx; reflexivity).
      reflexivity. }
  assert (Hd : ch16_ex3.denominator (inject_Z k / 2) = 1%positive \/
               (forall e, 0 < e -> libm_pow 0 e == 0)).
  { destruct Hpow as [Hev|Hpow]; [left|right; assumption].
    apply Z.even_spec in Hev. destruct Hev as [m ->].
    unfold ch16_ex3.denominator. rewrite (Qred_integral _ m (half_of_even m)).
    reflexivity. }
  pose proof (frac_term_at_zero libm_pow _ _ Hs Hz Hd) as Ht.
  destruct (frac_cdf_outcome libm_pow x k Hk) as (g & G & Hg & HG & _ & E).
  rewrite E. clear E.
  rewrite (range_cons 0 100) in * by lia. cbn [map existsb before] in *.
  assert (Hsm : small ch16_ex3.ε
                  (frac_term libm_pow (inject_Z k / 2)
                     (ch16_ex3.Fraction (ch16_ex3.halve x)) 0) = true).
  { rewrite (small_compat _ _ 0 Ht). reflexivity. }
  rewrite Hsm in *. cbn [orb returns fst snd]. split; [|reflexivity].
  change (Qsum []) with 0 in Hg. rewrite Hg. field. lra.
Qed.

Lemma pow_cr_zero (e : Q) : 0 < e -> pow_cr 0 e == 0.
Proof.
  intros He. unfold pow_cr.
  pose proof (Qred_num_pos e He) as Hn.
  destruct (Qnum (Qred e)) as [|n|n]; try lia.
  cbn [Qpower].
  assert (H0 : Qpower_positive 0 n == 0) by apply Qpower_positive_0.
  destruct (Qden (Qred e)) as [p|p|]; [reflexivity| |].
  - destruct p; try reflexivity.
    unfold round_sqrt. rewrite (Qred_complete _ _ H0). reflexivity.
  - rewrite (round64_compat _ _ H0). reflexivity.
Qed.

Lemma frac_cdf_at_zero_witness :
  returns (ch16_ex3.cdf pow_cr (ch16_ex3.PyFloat 0) 3)
    (fun r => fst r == 1 /\ snd r = []).
Proof.
  apply (frac_cdf_at_zero pow_cr (ch16_ex3.PyFloat 0) 3); [lia|reflexivity|].
  right. exact pow_cr_zero.
Defined.

(** ** The functional equation of [Gamma_Half] *)

Lemma Gamma_closed_form_succ (root_pi : Q) (n : Z) :
  (0 <= n)%Z ->
  Gamma_closed_form root_pi (n + 1) ==
  (inject_Z n + (1 # 2)) * Gamma_closed_form root_pi n.
Proof.
  intros Hn. unfold Gamma_closed_form.
  replace (2 * (n + 1))%Z with (2 * n + 1 + 1)%Z by lia.
  rewrite (factorial_succ (2 * n + 1)) by lia.
  rewrite (factorial_succ (2 * n)) by lia.
  rewrite (factorial_succ n) by lia.
  rewrite Qpower_succ by lia.
  rewrite !inject_Z_mult, !inject_Z_plus, !inject_Z_mult.
  change (inject_Z 1) with 1. change (inject_Z 2) with 2.
  pose proof (factorial_inject_pos (Z.to_nat n)) as Hf.
  pose proof (factorial_inject_pos (Z.to_nat (2 * n))) as Hf2.
  assert (H4 : 0 < 4 ^ n) by (apply Qpower_0_lt; reflexivity).
  assert (HN : 0 <= inject_Z n) by (unfold Qle; cbn [Qnum Qden inject_Z]; lia).
  set (F := inject_Z (factorial (Z.to_nat n))) in *.
  set (F2 := inject_Z (factorial (Z.to_nat (2 * n)))) in *.
  set (P := 4 ^ n) in *. set (N := inject_Z n) in *.
  field. repeat split; lra.
Qed.

(** In the rational file [Gamma_Half(k + 1) = k * Gamma_Half(k)], exactly,
    at every half-integer [k = n + 1/2] and every integer [k = n + 1]
    with [n >= 0]. *)
Theorem frac_Gamma_Half_recurrence (n : Z) :
  (0 <= n)%Z ->
  returns (ch16_ex3.Gamma_Half (inject_Z n + (1 # 2)))
    (fun G =>
       returns (ch16_ex3.Gamma_Half (inject_Z n + (1 # 2) + 1))
         (fun G' => G' == (inject_Z n + (1 # 2)) * G)) /\
  returns (ch16_ex3.Gamma_Half (inject_Z (n + 1)))
    (fun G =>
       returns (ch16_ex3.Gamma_Half (inject_Z (n + 1) + 1))
         (fun G' => G' == inject_Z (n + 1) * G)).
Proof.
  intros Hn. split.
  - pose proof (frac_Gamma_Half_half_integer (inject_Z n + (1 # 2)) n
                  ltac:(reflexivity) Hn) as H1.
    assert (E : inject_Z n + (1 # 2) + 1 == inject_Z (n + 1) + (1 # 2)).
    { rewrite inject_Z_plus. change (inject_Z 1) with 1. ring. }
    pose proof (frac_Gamma_Half_half_integer _ (n + 1) E ltac:(lia)) as H2.
    destruct (ch16_ex3.Gamma_Half (inject_Z n + (1 # 2))) as [G|e];
      [|contradiction].
    destruct (ch16_ex3.Gamma_Half (inject_Z n + (1 # 2) + 1)) as [G'|e];
      [|contradiction].
    cbn [returns] in *. rewrite H2, H1. apply Gamma_closed_form_succ. assumption.
  - rewrite (frac_Gamma_Half_integer (inject_Z (n + 1)) (n + 1) ltac:(reflexivity)).
    assert (E : inject_Z (n + 1) + 1 == inject_Z (n + 1 + 1)).
    { rewrite (inject_Z_plus (n + 1) 1). reflexivity. }
    rewrite (frac_Gamma_Half_integer _ (n + 1 + 1) E).
    replace (n + 1 - 1)%Z with n by lia.
    replace (n + 1 + 1 - 1)%Z with (n + 1)%Z by lia.
    rewrite !float_fact_factorial by lia.
    cbn [bind returns]. rewrite factorial_succ by assumption.
    rewrite inject_Z_mult. reflexivity.
Qed.

Lemma frac_Gamma_Half_recurrence_witness :
  returns (ch16_ex3.Gamma_Half (inject_Z 2 + (1 # 2)))
    (fun G =>
       returns (ch16_ex3.Gamma_Half (inject_Z 2 + (1 # 2) + 1))
         (fun G' => G' == (inject_Z 2 + (1 # 2)) * G)).
Proof. apply (frac_Gamma_Half_recurrence 2). lia. Defined.

(** ** Two degrees of freedom: the exponential *)

Lemma Qpower_opp (z : Q) (e : Z) :
  (0 <= e)%Z -> (- z) ^ e == inject_Z ((-1) ^ e) * z ^ e.
Proof.
  intros He. rewrite Zpower_Qpower by assumption.
  rewrite <- Qmult_power. apply Qpower_comp; [|reflexivity].
  change (inject_Z (-1)) with (-(1))%Q. ring.
Qed.

(** At [s = 1] the first [n] terms of the series add up to one minus the
    Taylor polynomial of degree [n] of [exp] at [-z]. *)
Lemma series_is_exp_polynomial (libm_pow : Q -> Q -> Q) (s z : Q) (n : nat) :
  s == inject_Z 1 ->
  Qsum (map (frac_term libm_pow s z) (range 0 (Z.of_nat n))) ==
  1 - exp_polynomial (- z) n.
Proof.
  intros Hs. unfold exp_polynomial. induction n as [|n IH].
  - change (range 0 (Z.of_nat 0)) with (@nil Z).
    change (range 0 (Z.of_nat 0 + 1)) with [0%Z].
    cbn [map]. rewrite Qsum_cons. change (Qsum []) with 0.
    change ((- z) ^ 0) with 1. change (inject_Z (factorial (Z.to_nat 0))) with 1.
    field.
  - rewrite Nat2Z.inj_succ. unfold Z.succ.
    rewrite (range_snoc 0 (Z.of_nat n)) by lia.
    rewrite (range_snoc 0 (Z.of_nat n + 1)) by lia.
    rewrite !map_app, !Qsum_app. cbn [map]. rewrite !Qsum_cons.
    change (Qsum []) with 0. rewrite IH.
    rewrite (frac_term_sign libm_pow s z 1 Hs ltac:(lia)) by lia.
    unfold series_magnitude.
    rewrite Qpower_opp by lia.
    rewrite sign_succ by lia.
    rewrite factorial_succ by lia.
    replace (1 + Z.of_nat n)%Z with (Z.of_nat n + 1)%Z by lia.
    rewrite inject_Z_mult.
    pose proof (factorial_inject_pos (Z.to_nat (Z.of_nat n))) as Hf.
    pose proof (inject_Z_pos (Z.of_nat n + 1) ltac:(lia)) as Hn.
    set (F := inject_Z (factorial (Z.to_nat (Z.of_nat n)))) in *.
    set (N := inject_Z (Z.of_nat n + 1)) in *.
    set (P := z ^ (Z.of_nat n + 1)). set (S := inject_Z ((-1) ^ Z.of_nat n)).
    set (E := Qsum _).
    field. split; lra.
Qed.

(** With two degrees of freedom the rational [cdf] returns a Taylor
    polynomial of [exp(-x/2)], exactly: the one whose degree is the number
    of terms that [gamma] adds up. *)
Theorem frac_cdf_2_is_exp_polynomial (libm_pow : Q -> Q -> Q) (x : ch16_ex3.number) :
  returns (ch16_ex3.cdf libm_pow x 2)
    (fun r =>
       fst r ==
       exp_polynomial (- ch16_ex3.Fraction (ch16_ex3.halve x))
         (terms_summed libm_pow (inject_Z 2 / 2)
            (ch16_ex3.Fraction (ch16_ex3.halve x)))).
Proof.
  set (z := ch16_ex3.Fraction (ch16_ex3.halve x)).
  destruct (frac_gamma_outcome libm_pow (inject_Z 2 / 2) z eq_refl) as (g & Hg & E).
  cbv zeta in Hg, E.
  change (ch16_ex3.cdf libm_pow x 2) with (ch16_ex3.cdf libm_pow x (2 * 1)).
  rewrite (frac_cdf_even libm_pow x 1 ltac:(lia) _ _ E).
  cbn [returns fst].
  rewrite terms_summed_spec in Hg.
  rewrite (series_is_exp_polynomial libm_pow _ z _ (half_of_even 1)) in Hg.
  rewrite Hg. change (inject_Z (factorial (Z.to_nat (1 - 1)))) with 1.
  field.
Qed.

(** ** [take_until] *)

(** [take_until] stops its source for good at the first value of which
    [function] holds: what the loop would do after it (further passes
    that raise, the warning after the loop) never happens, and the sum is
    that of the values before. *)
Theorem take_until_abandons_source {A : Type}
    (body : Z -> result A) (val : Z -> A) (stop : A -> bool) (add : A -> A -> A)
    (ks1 : list Z) (k : Z) (ks2 : list Z) (after : gen A) :
  (forall j, In j ks1 -> body j = Ok (val j)) ->
  body k = Ok (val k) -> stop (val k) = true ->
  forall acc ws,
    sum_from add acc ws (take_until stop (gen_for body (ks1 ++ k :: ks2) after)) =
    Ok (fold_left add (before stop (map val ks1)) acc, ws).
Proof.
  intros Hks Hk Hstop. induction ks1 as [|j ks1 IH]; intros acc ws.
  - cbn [app gen_for]. rewrite Hk. cbn [take_until]. rewrite Hstop. reflexivity.
  - cbn [app gen_for map before]. rewrite (Hks j (or_introl eq_refl)).
    cbn [take_until]. destruct (stop (val j)); [reflexivity|].
    cbn [sum_from fold_left]. apply IH.
    intros i Hi. apply Hks. right. assumption.
Qed.

Lemma take_until_abandons_source_witness :
  sum_from Z.add 0%Z []
    (take_until (fun v => (2 <=? v)%Z)
       (gen_for (fun j => if (j <? 3)%Z then Ok j else Raise TypeError)
          ([0; 1] ++ 2 :: [3; 4])%Z (Warn "late" (Fail ValueError)))) =
  Ok (1%Z, []).
Proof.
  apply (take_until_abandons_source
           (fun j => if (j <? 3)%Z then Ok j else Raise TypeError)
           (fun j => j) (fun v => (2 <=? v)%Z) Z.add [0; 1]%Z 2%Z [3; 4]%Z
           (Warn "late" (Fail ValueError))).
  - intros j [<-|[<-|[]]]; reflexivity.
  - reflexivity.
  - reflexivity.
Defined.

(** * [Gamma1f] of Bonus/chi_sq.py at the integers *)

Section TupleTakeUntilStar.

Context {A : Type}.
Variables (body : Z -> result A) (val : Z -> A) (function : A -> result bool).

(** While [function] is false the values pass; the first value at which
    it is true or raises decides how [tuple] ends. *)
Lemma tuple_take_until_star (ks1 : list Z) (rest : list Z) (after : gen A) :
  (forall j, In j ks1 -> body j = Ok (val j) /\ function (val j) = Ok false) ->
  tuple (chi_sq.take_until_star function (gen_for body (ks1 ++ rest) after)) =
  match tuple (chi_sq.take_until_star function (gen_for body rest after)) with
  | Ok l => Ok (map val ks1 ++ l)
  | Raise e => Raise e
  end.
Proof.
  intros H. induction ks1 as [|j ks1 IH].
  - cbn [app map].
    destruct (tuple (chi_sq.take_until_star function (gen_for body rest after)));
      reflexivity.
  - cbn [app gen_for map].
    destruct (H j (or_introl eq_refl)) as [-> Hf].
    cbn [chi_sq.take_until_star]. rewrite Hf. cbn [tuple].
    rewrite IH by (intros i Hi; apply H; right; assumption).
    destruct (tuple (chi_sq.take_until_star function (gen_for body rest after)));
      reflexivity.
Qed.

Lemma tuple_take_until_star_all (ks : list Z) :
  (forall j, In j ks -> body j = Ok (val j) /\ function (val j) = Ok false) ->
  tuple (chi_sq.take_until_star function (gen_for body ks Stop)) = Ok (map val ks).
Proof.
  intros H. pose proof (tuple_take_until_star ks [] Stop H) as E.
  rewrite app_nil_r in E. rewrite E. cbn [gen_for chi_sq.take_until_star tuple].
  rewrite app_nil_r. reflexivity.
Qed.

End TupleTakeUntilStar.

Lemma inject_Z_ge_1 (k : Z) : (1 <= k)%Z -> 1 <= inject_Z k.
Proof. intros H. unfold Qle. cbn [Qnum Qden inject_Z]. lia. Qed.

(** One pass of [num_den] at an integer [t]. *)
Lemma num_den_pass (libm_pow : Q -> Q -> Q) (t k : Z) :
  (1 <= k)%Z ->
  (f <- ch16_ex3.Fraction2 1 k ;;
   n <- ch16_ex3.Fraction_pow libm_pow (1 + f) (inject_Z t) ;;
   q <- ch16_ex3.Fraction_div (inject_Z t) (inject_Z k) ;;
   Ok (n, 1 + q)) = Ok (num_den_at t k).
Proof.
  intros Hk. pose proof (inject_Z_ge_1 k Hk) as HK.
  unfold ch16_ex3.Fraction2.
  replace (k =? 0)%Z with false by (symmetry; apply Z.eqb_neq; lia).
  cbn [bind]. unfold ch16_ex3.Fraction_pow, ch16_ex3.denominator, ch16_ex3.numerator.
  rewrite Qred_inject_Z. cbn [Qden Qnum inject_Z].
  assert (Ha : 0 < 1 + inject_Z 1 / inject_Z k).
  { assert (0 < inject_Z 1 / inject_Z k).
    { apply Qlt_shift_div_l; [lra|]. rewrite Qmult_0_l. reflexivity. }
    lra. }
  assert (E0 : Qeq_bool (1 + inject_Z 1 / inject_Z k) 0 = false)
    by (apply Qeq_bool_false; lra).
  assert (Ek : Qeq_bool (inject_Z k) 0 = false) by (apply Qeq_bool_false; lra).
  unfold ch16_ex3.Fraction_div. rewrite E0, Ek.
  destruct (0 <=? t)%Z; reflexivity.
Qed.

(** The ratio [(1+1/k)^t / (1+t/k)] exceeds [1] by [1/(k(k+2))] at
    [t = 2] and grows with [t]. *)
Lemma ratio_lower (k : Z) (n : nat) :
  (1 <= k)%Z ->
  1 + 1 / (inject_Z k * (inject_Z k + 2)) <=
  (1 + inject_Z 1 / inject_Z k) ^ (2 + Z.of_nat n)
  / (1 + inject_Z (2 + Z.of_nat n) / inject_Z k).
Proof.
  intros Hk. pose proof (inject_Z_ge_1 k Hk) as HK.
  change (inject_Z 1) with 1. set (K := inject_Z k) in *.
  induction n as [|n IH].
  - change (2 + Z.of_nat 0)%Z with 2%Z. change (inject_Z 2) with 2.
    change ((1 + 1 / K) ^ 2) with ((1 + 1 / K) * (1 + 1 / K)).
    apply Qle_lteq. right. field. repeat split; lra.
  - replace (2 + Z.of_nat (S n))%Z with (2 + Z.of_nat n + 1)%Z by lia.
    rewrite Qpower_succ by lia. rewrite inject_Z_plus.
    change (inject_Z 1) with 1.
    assert (HT : 2 <= inject_Z (2 + Z.of_nat n)).
    { change 2 with (inject_Z 2). unfold Qle. cbn [Qnum Qden inject_Z]. lia. }
    set (T := inject_Z (2 + Z.of_nat n)) in *.
    assert (HR : 0 < (1 + 1 / K) ^ (2 + Z.of_nat n)).
    { apply Qpower_0_lt.
      assert (0 < 1 / K) by (apply Qlt_shift_div_l; lra). lra. }
    set (R := (1 + 1 / K) ^ (2 + Z.of_nat n)) in *.
    set (L := 1 + 1 / (K * (K + 2))) in *.
    assert (HTK : 0 < T / K) by (apply Qlt_shift_div_l; lra).
    assert (HD : 0 < 1 + T / K) by lra.
    assert (HD' : 0 < 1 + (T + 1) / K).
    { assert (0 < (T + 1) / K) by (apply Qlt_shift_div_l; lra). lra. }
    apply Qle_trans with (R / (1 + T / K)); [exact IH|].
    apply Qle_shift_div_l; [assumption|].
    assert (E : R / (1 + T / K) * (1 + (T + 1) / K)
                == R * ((K + T + 1) / (K + T))) by (field; split; lra).
    assert (E' : (1 + 1 / K) * R == R * ((K + 1) / K)) by (field; lra).
    rewrite E, E'.
    apply Qmult_le_l; [assumption|].
    apply Qle_shift_div_r; [lra|].
    assert (E2 : (K + 1) / K * (K + T) == (K + T) + (K + T) / K) by (field; lra).
    rewrite E2.
    assert (1 <= (K + T) / K) by (apply Qle_shift_div_l; lra).
    lra.
Qed.

(** At an integer [t >= 2] none of the 999 pairs is within [ε] of one. *)
Lemma nearly_one_false (t k : Z) :
  (2 <= t)%Z -> (1 <= k < 1000)%Z ->
  chi_sq.nearly_one (num_den_at t k) = Ok false.
Proof.
  intros Ht Hk. pose proof (inject_Z_ge_1 k ltac:(lia)) as HK.
  unfold chi_sq.nearly_one, num_den_at. cbn [fst snd chi_sq.number_truediv].
  assert (HT : 2 <= inject_Z t).
  { change 2 with (inject_Z 2). unfold Qle. cbn [Qnum Qden inject_Z]. lia. }
  assert (HTK : 0 < inject_Z t / inject_Z k) by (apply Qlt_shift_div_l; lra).
  assert (Ed : Qeq_bool (1 + inject_Z t / inject_Z k) 0 = false)
    by (apply Qeq_bool_false; lra).
  rewrite Ed. cbn [bind chi_sq.number_sub_int ch16_ex3.Fraction]. f_equal.
  apply Qlt_bool_false.
  pose proof (ratio_lower k (Z.to_nat (t - 2)) ltac:(lia)) as Hr.
  replace (2 + Z.of_nat (Z.to_nat (t - 2)))%Z with t in Hr by lia.
  change (inject_Z 1) with 1 in *.
  set (r := (1 + 1 / inject_Z k) ^ t / (1 + inject_Z t / inject_Z k)) in *.
  assert (HK2 : inject_Z k <= 999).
  { change 999 with (inject_Z 999). unfold Qle. cbn [Qnum Qden inject_Z]. lia. }
  assert (Hg : 1 # 999999 <= 1 / (inject_Z k * (inject_Z k + 2))).
  { set (K := inject_Z k) in *.
    apply Qle_shift_div_l; [nra|].
    assert (K * (K + 2) <= 999999) by nra. lra. }
  assert (He : chi_sq.ε <= 1 # 999999) by (apply Qle_bool_iff; reflexivity).
  rewrite Qabs_pos by lra. lra.
Qed.

Lemma Qprod_app (l1 l2 : list Q) : Qprod (l1 ++ l2) == Qprod l1 * Qprod l2.
Proof.
  induction l1 as [|x l1 IH]; cbn [app Qprod fold_right].
  - fold (Qprod l2). ring.
  - fold (Qprod (l1 ++ l2)) (Qprod l1). rewrite IH. ring.
Qed.

Lemma fold_left_Qmult (l : list Q) (a : Q) : fold_left Qmult l a == a * Qprod l.
Proof.
  revert a. induction l as [|x l IH]; intros a; cbn [fold_left Qprod fold_right].
  - ring.
  - fold (Qprod l). rewrite IH. ring.
Qed.

Lemma fold_left_number_mul (l : list Q) (a : Q) :
  fold_left chi_sq.number_mul (map ch16_ex3.PyFraction l) (ch16_ex3.PyFraction a) =
  ch16_ex3.PyFraction (fold_left Qmult l a).
Proof.
  revert a. induction l as [|x l IH]; intros a; cbn [map fold_left]; [reflexivity|].
  cbn [chi_sq.number_mul]. apply IH.
Qed.

(** The numerators telescope: [prod_{k=1}^{n} (1+1/k)^t = (n+1)^t]. *)
Lemma numerators_telescope (t : Z) (n : nat) :
  Qprod (map (fun k => (1 + inject_Z 1 / inject_Z k) ^ t) (range 1 (Z.of_nat n + 1)))
  == inject_Z (Z.of_nat n + 1) ^ t.
Proof.
  induction n as [|n IH].
  - change (range 1 (Z.of_nat 0 + 1)) with (@nil Z).
    change (inject_Z (Z.of_nat 0 + 1)) with 1.
    cbn [map Qprod fold_right]. symmetry. apply Qpower_1.
  - rewrite Nat2Z.inj_succ. unfold Z.succ.
    rewrite (range_snoc 1 (Z.of_nat n + 1)) by lia.
    rewrite map_app, Qprod_app, IH. cbn [map Qprod fold_right].
    rewrite Qmult_1_r, <- Qmult_power.
    apply Qpower_comp; [|reflexivity].
    rewrite (inject_Z_plus (Z.of_nat n + 1) 1).
    pose proof (inject_Z_ge_1 (Z.of_nat n + 1) ltac:(lia)).
    change (inject_Z 1) with 1. field. lra.
Qed.

(** The denominators: [prod_{k=1}^{n} (1+t/k) = (n+t)! / (t! n!)]. *)
Lemma denominators_telescope (t : Z) (n : nat) :
  (0 <= t)%Z ->
  Qprod (map (fun k => 1 + inject_Z t / inject_Z k) (range 1 (Z.of_nat n + 1)))
  == inject_Z (factorial (Z.to_nat (Z.of_nat n + t)))
     / (inject_Z (factorial (Z.to_nat t)) * inject_Z (factorial (Z.to_nat (Z.of_nat n)))).
Proof.
  intros Ht. induction n as [|n IH].
  - change (range 1 (Z.of_nat 0 + 1)) with (@nil Z).
    change (Z.of_nat 0 + t)%Z with t.
    change (inject_Z (factorial (Z.to_nat (Z.of_nat 0)))) with 1.
    cbn [map Qprod fold_right].
    pose proof (factorial_inject_pos (Z.to_nat t)). field. lra.
  - rewrite Nat2Z.inj_succ. unfold Z.succ.
    rewrite (range_snoc 1 (Z.of_nat n + 1)) by lia.
    rewrite map_app, Qprod_app, IH. cbn [map Qprod fold_right].
    replace (Z.of_nat n + 1 + t)%Z with (Z.of_nat n + t + 1)%Z by lia.
    rewrite (factorial_succ (Z.of_nat n + t)) by lia.
    rewrite (factorial_succ (Z.of_nat n)) by lia.
    rewrite !inject_Z_mult, !inject_Z_plus. change (inject_Z 1) with 1.
    pose proof (factorial_inject_pos (Z.to_nat t)) as H1.
    pose proof (factorial_inject_pos (Z.to_nat (Z.of_nat n))) as H2.
    pose proof (factorial_inject_pos (Z.to_nat (Z.of_nat n + t))) as H3.
    assert (HN : 0 <= inject_Z (Z.of_nat n))
      by (unfold Qle; cbn [Qnum Qden inject_Z]; lia).
    set (F1 := inject_Z (factorial (Z.to_nat t))) in *.
    set (F2 := inject_Z (factorial (Z.to_nat (Z.of_nat n)))) in *.
    set (F3 := inject_Z (factorial (Z.to_nat (Z.of_nat n + t)))) in *.
    set (N := inject_Z (Z.of_nat n)) in *. set (T := inject_Z t) in *.
    field. repeat split; lra.
Qed.

Lemma reduce_numerators (t k0 : Z) (ks : list Z) :
  reduce chi_sq.number_mul (map fst (map (num_den_at t) (k0 :: ks))) =
  Ok (ch16_ex3.PyFraction
        (fold_left Qmult (map (fun k => (1 + inject_Z 1 / inject_Z k) ^ t) ks)
           ((1 + inject_Z 1 / inject_Z k0) ^ t))).
Proof.
  cbn [map reduce fst num_den_at]. f_equal.
  rewrite <- fold_left_number_mul. f_equal.
  rewrite !map_map. reflexivity.
Qed.

Lemma reduce_denominators (t k0 : Z) (ks : list Z) :
  reduce Qmult (map snd (map (num_den_at t) (k0 :: ks))) =
  Ok (fold_left Qmult (map (fun k => 1 + inject_Z t / inject_Z k) ks)
        (1 + inject_Z t / inject_Z k0)).
Proof.
  cbn [map reduce snd num_den_at]. f_equal. f_equal.
  rewrite !map_map. reflexivity.
Qed.

(** [1000^t * 999! / (999+t)!] is below one from [t = 2] on. *)
Lemma Gamma1f_factor_below_one (n : nat) :
  1000 ^ (2 + Z.of_nat n) * inject_Z (factorial 999)
  / inject_Z (factorial (Z.to_nat (999 + (2 + Z.of_nat n)))) < 1.
Proof.
  pose proof (factorial_inject_pos 999) as H9.
  set (F := inject_Z (factorial 999)) in *.
  induction n as [|n IH].
  - change (2 + Z.of_nat 0)%Z with 2%Z.
    change (999 + 2)%Z with (999 + 1 + 1)%Z.
    rewrite (factorial_succ (999 + 1)) by lia.
    rewrite (factorial_succ 999) by lia.
    change (factorial (Z.to_nat 999)) with (factorial 999).
    rewrite !inject_Z_mult. fold F.
    change (inject_Z (999 + 1 + 1)) with 1001.
    change (inject_Z (999 + 1)) with 1000.
    change (1000 ^ 2) with (1000 * 1000).
    apply Qlt_shift_div_r; [nra|]. nra.
  - replace (2 + Z.of_nat (S n))%Z with (2 + Z.of_nat n + 1)%Z by lia.
    replace (999 + (2 + Z.of_nat n + 1))%Z with (999 + (2 + Z.of_nat n) + 1)%Z by lia.
    rewrite Qpower_succ by lia.
    rewrite (factorial_succ (999 + (2 + Z.of_nat n))) by lia.
    rewrite inject_Z_mult.
    pose proof (factorial_inject_pos (Z.to_nat (999 + (2 + Z.of_nat n)))) as HG.
    set (G := inject_Z (factorial (Z.to_nat (999 + (2 + Z.of_nat n))))) in *.
    assert (HM : 1000 <= inject_Z (999 + (2 + Z.of_nat n) + 1)).
    { change 1000 with (inject_Z 1000). unfold Qle. cbn [Qnum Qden inject_Z]. lia. }
    set (M := inject_Z (999 + (2 + Z.of_nat n) + 1)) in *.
    assert (HP : 0 < 1000 ^ (2 + Z.of_nat n)) by (apply Qpower_0_lt; reflexivity).
    set (P := 1000 ^ (2 + Z.of_nat n)) in *.
    assert (HA : P * F == P * F / G * G) by (field; lra).
    set (Y := P * F / G) in *.
    assert (HY : P * F < G) by (rewrite HA; nra).
    apply Qlt_shift_div_r; [nra|]. nra.
Qed.

(** At every integer [t >= 2] none of the 999 factors is dropped, and
    [Gamma1f] returns a [Fraction]: the product multiplied out, which lies
    strictly between [0] and [(t-1)!]. *)
Theorem Gamma1f_at_integers (libm_pow : Q -> Q -> Q) (t : Z) :
  (2 <= t)%Z ->
  returns (chi_sq.Gamma1f libm_pow (inject_Z t))
    (fun r =>
       ch16_ex3.is_float r = false /\
       ch16_ex3.Fraction r == Gamma1f_closed_form t /\
       0 < ch16_ex3.Fraction r < inject_Z (factorial (Z.to_nat (t - 1)))).
Proof.
  intros Ht. unfold chi_sq.Gamma1f, chi_sq.num_den.
  assert (Hcons : range 1 1000 = 1%Z :: range (1 + 1) 1000) by (apply range_cons; lia).
  assert (Hn : range 1 1000 = range 1 (Z.of_nat 999 + 1)) by reflexivity.
  assert (Hin : forall j, In j (range 1 1000) -> (1 <= j < 1000)%Z)
    by (intros j; apply in_range).
  set (ks := range 1 1000) in *.
  rewrite (tuple_take_until_star_all _ (num_den_at t) chi_sq.nearly_one ks).
  2:{ intros j Hj. split.
      - apply num_den_pass. apply Hin in Hj. lia.
      - apply nearly_one_false; [assumption|]. apply Hin. assumption. }
  cbn [bind]. rewrite Hcons.
  rewrite reduce_numerators, reduce_denominators. cbn [bind].
  set (P := fold_left Qmult _ ((1 + inject_Z 1 / inject_Z 1) ^ t)).
  set (D := fold_left Qmult _ (1 + inject_Z t / inject_Z 1)).
  assert (HP : P == 1000 ^ t).
  { unfold P. rewrite fold_left_Qmult.
    change ((1 + inject_Z 1 / inject_Z 1) ^ t
            * Qprod (map (fun k => (1 + inject_Z 1 / inject_Z k) ^ t)
                       (range (1 + 1) 1000)))
      with (Qprod (map (fun k => (1 + inject_Z 1 / inject_Z k) ^ t)
                     (1%Z :: range (1 + 1) 1000))).
    rewrite <- Hcons, Hn, numerators_telescope. reflexivity. }
  assert (HD : D == inject_Z (factorial (Z.to_nat (999 + t)))
                    / (inject_Z (factorial (Z.to_nat t)) * inject_Z (factorial 999))).
  { unfold D. rewrite fold_left_Qmult.
    change ((1 + inject_Z t / inject_Z 1)
            * Qprod (map (fun k => 1 + inject_Z t / inject_Z k) (range (1 + 1) 1000)))
      with (Qprod (map (fun k => 1 + inject_Z t / inject_Z k)
                     (1%Z :: range (1 + 1) 1000))).
    rewrite <- Hcons, Hn, denominators_telescope by lia. reflexivity. }
  clearbody P D. clear Hcons Hn Hin. clear ks.
  pose proof (factorial_inject_pos 999) as H9.
  pose proof (factorial_inject_pos (Z.to_nat (999 + t))) as HG.
  pose proof (factorial_inject_pos (Z.to_nat (t - 1))) as H1.
  assert (Ef : inject_Z (factorial (Z.to_nat t))
               == inject_Z t * inject_Z (factorial (Z.to_nat (t - 1)))).
  { replace t with (t - 1 + 1)%Z at 1 by lia.
    rewrite factorial_succ by lia. rewrite inject_Z_mult.
    replace (t - 1 + 1)%Z with t by lia. reflexivity. }
  assert (HT : 2 <= inject_Z t).
  { change 2 with (inject_Z 2). unfold Qle. cbn [Qnum Qden inject_Z]. lia. }
  pose proof (Gamma1f_factor_below_one (Z.to_nat (t - 2))) as Hb.
  replace (2 + Z.of_nat (Z.to_nat (t - 2)))%Z with t in Hb by lia.
  assert (H1000 : 0 < 1000 ^ t) by (apply Qpower_0_lt; reflexivity).
  unfold Gamma1f_closed_form.
  set (F9 := inject_Z (factorial 999)) in *.
  set (G := inject_Z (factorial (Z.to_nat (999 + t)))) in *.
  set (F1 := inject_Z (factorial (Z.to_nat (t - 1)))) in *.
  set (Ft := inject_Z (factorial (Z.to_nat t))) in *.
  set (T := inject_Z t) in *. set (X := 1000 ^ t) in *.
  assert (HFt : 0 < Ft) by (rewrite Ef; apply Qmult_lt_0_compat; lra).
  assert (HFF : 0 < Ft * F9) by (apply Qmult_lt_0_compat; assumption).
  assert (HD0 : 0 < D).
  { rewrite HD. apply Qlt_shift_div_l; [assumption|]. lra. }
  unfold chi_sq.number_truediv.
  assert (E0 : Qeq_bool (T * D) 0 = false) by (apply Qeq_bool_false; nra).
  rewrite E0. cbn [returns ch16_ex3.is_float ch16_ex3.Fraction].
  assert (Ev : P / (T * D) == F1 * (X * F9 / G)).
  { rewrite HP, HD, Ef. field. repeat split; lra. }
  split; [reflexivity|]. split; [exact Ev|].
  rewrite Ev.
  assert (Hc : 0 < X * F9 / G) by (apply Qlt_shift_div_l; nra).
  set (C := X * F9 / G) in *. split; nra.
Qed.

Lemma Gamma1f_at_integers_witness :
  returns (chi_sq.Gamma1f pow_cr (inject_Z 3))
    (fun r =>
       ch16_ex3.is_float r = false /\
       ch16_ex3.Fraction r == Gamma1f_closed_form 3 /\
       0 < ch16_ex3.Fraction r < inject_Z (factorial (Z.to_nat (3 - 1)))).
Proof. apply (Gamma1f_at_integers pow_cr 3). lia. Defined.

(** Below a negative integer [t], at [k < -t], the denominator [1+t/k]
    is negative and the pair is far from one; at [k = -t] it is zero. *)
Lemma nearly_one_negative (t k : Z) :
  (1 <= k < - t)%Z -> chi_sq.nearly_one (num_den_at t k) = Ok false.
Proof.
  intros Hk. pose proof (inject_Z_ge_1 k ltac:(lia)) as HK.
  unfold chi_sq.nearly_one, num_den_at. cbn [fst snd chi_sq.number_truediv].
  assert (HT : inject_Z t <= - inject_Z k - 1).
  { unfold Qle. cbn [Qnum Qden inject_Z Qplus Qminus Qopp Qmult]. lia. }
  change (inject_Z 1) with 1 in *.
  set (K := inject_Z k) in *. set (T := inject_Z t) in *.
  assert (HTK : T / K <= -1 - 1 / K).
  { apply Qle_shift_div_r; [lra|].
    assert (E : (-1 - 1 / K) * K == - K - 1) by (field; lra).
    rewrite E. assumption. }
  assert (H1K : 0 < 1 / K) by (apply Qlt_shift_div_l; lra).
  assert (Ed : Qeq_bool (1 + T / K) 0 = false) by (apply Qeq_bool_false; lra).
  rewrite Ed. cbn [bind chi_sq.number_sub_int ch16_ex3.Fraction]. f_equal.
  apply Qlt_bool_false.
  assert (HP : 0 < (1 + 1 / K) ^ t) by (apply Qpower_0_lt; lra).
  set (R := (1 + 1 / K) ^ t) in *.
  assert (Hq : R / (1 + T / K) < 0).
  { assert (E : R / (1 + T / K) == - (R / - (1 + T / K))) by (field; lra).
    rewrite E.
    assert (0 < R / - (1 + T / K)) by (apply Qlt_shift_div_l; lra). lra. }
  change (inject_Z 1) with 1.
  assert (He : chi_sq.ε <= 1) by (apply Qle_bool_iff; reflexivity).
  rewrite Qabs_neg by lra. lra.
Qed.

Lemma nearly_one_pole (t : Z) :
  (t <= -1)%Z -> chi_sq.nearly_one (num_den_at t (- t)) = Raise ZeroDivisionError.
Proof.
  intros Ht. unfold chi_sq.nearly_one, num_den_at.
  cbn [fst snd chi_sq.number_truediv].
  assert (Ed : Qeq_bool (1 + inject_Z t / inject_Z (- t)) 0 = true).
  { apply Qeq_bool_iff. rewrite inject_Z_opp.
    assert (HT : inject_Z t <= - (1)).
    { change (- (1)) with (inject_Z (-1)). unfold Qle.
      cbn [Qnum Qden inject_Z]. lia. }
    field. lra. }
  rewrite Ed. reflexivity.
Qed.

(** [Gamma1f] off its domain. At [t = 0] and at [t = 1] the first pair
    already is within [ε] of one, no factor is left and [reduce] raises
    [TypeError]; at a negative integer [t >= -999] the denominator of pass
    [k = -t] is zero and the test [n/d] raises [ZeroDivisionError]. *)
Theorem Gamma1f_off_domain (libm_pow : Q -> Q -> Q) (t : Z) :
  (-999 <= t <= 1)%Z ->
  chi_sq.Gamma1f libm_pow (inject_Z t) =
  Raise (if (0 <=? t)%Z then TypeError else ZeroDivisionError).
Proof.
  intros Ht. unfold chi_sq.Gamma1f, chi_sq.num_den.
  destruct (0 <=? t)%Z eqn:E0.
  - apply Z.leb_le in E0.
    rewrite (range_cons 1 1000) by lia.
    assert (Hc : t = 0%Z \/ t = 1%Z) by lia.
    destruct Hc as [-> | ->]; reflexivity.
  - apply Z.leb_gt in E0.
    rewrite (range_split 1 (- t) 1000) by lia.
    rewrite (range_cons (- t) 1000) by lia.
    rewrite (tuple_take_until_star _ (num_den_at t) chi_sq.nearly_one).
    2:{ intros j Hj. apply in_range in Hj. split.
        - apply num_den_pass. lia.
        - apply nearly_one_negative. lia. }
    cbn [gen_for]. rewrite (num_den_pass libm_pow t (- t)) by lia.
    cbn [chi_sq.take_until_star]. rewrite nearly_one_pole by lia.
    reflexivity.
Qed.

Lemma Gamma1f_off_domain_witness :
  chi_sq.Gamma1f pow_cr (inject_Z 1) = Raise TypeError.
Proof. apply (Gamma1f_off_domain pow_cr 1). lia. Defined.

(** * The rational [cdf] at a large statistic *)

Lemma sign_cases (j : Z) :
  (0 <= j)%Z -> inject_Z ((-1) ^ j) == 1 \/ inject_Z ((-1) ^ j) == - (1).
Proof.
  intros Hj. destruct (Z.Even_or_Odd j) as [[i ->]|[i ->]].
  - left. apply sign_even. lia.
  - right. rewrite sign_succ by lia. rewrite sign_even by lia. reflexivity.
Qed.

Lemma Qpower_ge_exponent (z : Q) (n : nat) :
  2 <= z -> inject_Z (Z.of_nat n + 1) <= z ^ (Z.of_nat n + 1).
Proof.
  intros Hz. induction n as [|n IH].
  - change (Z.of_nat 0 + 1)%Z with 1%Z. change (z ^ 1) with z.
    change (inject_Z 1) with 1. lra.
  - rewrite Nat2Z.inj_succ. unfold Z.succ.
    rewrite Qpower_succ by lia. rewrite (inject_Z_plus (Z.of_nat n + 1) 1).
    change (inject_Z 1) with 1.
    assert (HN : 1 <= inject_Z (Z.of_nat n + 1)) by (apply inject_Z_ge_1; lia).
    set (N := inject_Z (Z.of_nat n + 1)) in *.
    set (P := z ^ (Z.of_nat n + 1)) in *. nra.
Qed.

(** From [z = 200] on, at an integer [s = m >= 1], every one of the 100
    terms has a magnitude of at least one. *)
Lemma no_small_term_at_large_z (libm_pow : Q -> Q -> Q) (s z : Q) (m : Z) :
  s == inject_Z m -> (1 <= m)%Z -> inject_Z 200 <= z ->
  existsb (small ch16_ex3.ε) (map (frac_term libm_pow s z) (range 0 100)) = false.
Proof.
  intros Hs Hm Hz.
  assert (Hz2 : 2 <= z).
  { apply Qle_trans with (inject_Z 200); [|assumption]. discriminate. }
  assert (H0 : 1 <= series_magnitude m z 0).
  { unfold series_magnitude. rewrite Z.add_0_r.
    change (inject_Z (factorial (Z.to_nat 0))) with 1.
    pose proof (Qpower_ge_exponent z (Z.to_nat (m - 1)) Hz2) as Hp.
    replace (Z.of_nat (Z.to_nat (m - 1)) + 1)%Z with m in Hp by lia.
    pose proof (inject_Z_ge_1 m Hm) as HM.
    apply Qle_shift_div_l; [lra|]. lra. }
  assert (Hall : forall n : nat, (Z.of_nat n < 100)%Z ->
                 1 <= series_magnitude m z (Z.of_nat n)).
  { induction n as [|n IH]; intros Hn; [exact H0|].
    rewrite Nat2Z.inj_succ. unfold Z.succ.
    apply Qle_trans with (series_magnitude m z (Z.of_nat n)); [apply IH; lia|].
    apply series_magnitude_ascending; [assumption|lia|].
    apply Qle_trans with (inject_Z 200); [|assumption].
    unfold Qle. cbn [Qnum Qden inject_Z]. lia. }
  destruct (existsb (small ch16_ex3.ε) (map (frac_term libm_pow s z) (range 0 100)))
    eqn:E; [|reflexivity].
  apply existsb_exists in E. destruct E as (t & Hin & Hsmall).
  apply in_map_iff in Hin. destruct Hin as (j & <- & Hj).
  apply in_range in Hj.
  pose proof (Hall (Z.to_nat j) ltac:(lia)) as Ha.
  rewrite Z2Nat.id in Ha by lia.
  pose proof (frac_term_sign libm_pow s z m Hs Hm j ltac:(lia)) as Ht.
  unfold small in Hsmall. apply Qlt_bool_iff in Hsmall.
  assert (He : ch16_ex3.ε <= 1) by (apply Qle_bool_iff; reflexivity).
  rewrite Ht in Hsmall.
  set (a := series_magnitude m z j) in *.
  destruct (sign_cases j ltac:(lia)) as [Hsg|Hsg]; rewrite Hsg in Hsmall.
  - rewrite Qabs_pos in Hsmall by lra. lra.
  - rewrite Qabs_neg in Hsmall by lra. lra.
Qed.

(** For every even [k >= 2] and every [Fraction] statistic [x >= 400]
    the rational [cdf] gives up after 100 growing terms: it warns, and
    what it returns is above one. *)
Theorem frac_cdf_large_statistic (libm_pow : Q -> Q -> Q) (x : Q) (k : Z) :
  Z.even k = true -> (2 <= k)%Z -> inject_Z 400 <= x ->
  returns (ch16_ex3.cdf libm_pow (ch16_ex3.PyFraction x) k)
    (fun r => 1 < fst r /\ snd r = ["More than 100 terms"%string]).
Proof.
  intros Hev Hk Hx.
  assert (Hnone : existsb (small ch16_ex3.ε)
                    (map (frac_term libm_pow (inject_Z k / 2) (x / 2)) (range 0 100))
                  = false).
  { pose proof Hev as Hev'. apply Z.even_spec in Hev'. destruct Hev' as [m ->].
    apply (no_small_term_at_large_z libm_pow _ _ m (half_of_even m)); [lia|].
    apply Qle_shift_div_l; [reflexivity|].
    change (inject_Z 200 * 2) with (inject_Z 400). assumption. }
  pose proof (frac_cdf_above_one libm_pow x k Hev Hk Hx Hnone) as Hv.
  destruct (frac_cdf_outcome libm_pow (ch16_ex3.PyFraction x) k ltac:(lia))
    as (g & G & _ & _ & _ & E).
  cbn [ch16_ex3.Fraction ch16_ex3.halve] in E.
  rewrite Hnone in E. rewrite E in Hv |- *.
  cbn [returns fst snd] in *. split; [exact Hv|reflexivity].
Qed.

Lemma frac_cdf_large_statistic_witness :
  returns (ch16_ex3.cdf pow_cr (ch16_ex3.PyFraction 1000) 6)
    (fun r => 1 < fst r /\ snd r = ["More than 100 terms"%string]).
Proof.
  apply (frac_cdf_large_statistic pow_cr 1000 6); [reflexivity|lia|discriminate].
Defined.
